(** * osquery configuration core: Schedule, Config, ConfigPlugin, ConfigParserPlugin

    A shallow embedding of [include/osquery/config.h].  The class
    [Schedule] is defined inline in the header and is embedded from its
    code.  The member functions of [Config], [ConfigPlugin] and
    [ConfigParserPlugin] are only declared there; their bodies are
    modelled from the specification and each such definition says so. *)

From Stdlib Require Import ZArith NArith List String Ascii Bool Lia Sorted Permutation.
From Stdlib Require OrderedTypeEx.
From stdpp Require Import base option list sorting strings gmap fin_maps fin_sets.

Import ListNotations.
Local Open Scope string_scope.
Local Open Scope list_scope.

(** ** Status

    Modelled from the spec: [Status] is declared in osquery/status.h; it
    is a code and a message, and code 0 is success. *)

Module Status.
Record t := mk { getCode : Z; getMessage : string }.
Definition ok (s : t) : bool := (getCode s =? 0)%Z.
Definition OK : t := mk 0 "OK".
End Status.

(** ** Pack (osquery/packs.h)

    Modelled from the spec: the class [Pack] is declared in packs.h, which
    is outside the header.  Identity is (name, source); the attributes are
    a platform constraint, a version constraint and the ordered scheduled
    queries. *)

Record ScheduledQuery := mkScheduledQuery {
  query : string;
  interval : Z;
  options : list (string * bool)
}.

Module Pack.
Record t := mk {
  getName : string;
  getSource : string;
  getPlatform : string;
  getVersion : string;
  getSchedule : list (string * ScheduledQuery)
}.
End Pack.

(** ** The backing store

    Modelled from the spec: the persistent store is an external
    collaborator of which the core needs two data shapes, the dirty bits
    of the queries that were started and not completed, and the blacklist
    counters. *)

Module Database.
Record t := mk {
  dirty : gset string;
  blacklist : gmap string N
}.
Definition empty : t := mk ∅ ∅.
End Database.

(** ** Schedule *)

Module Schedule.

(** [typedef std::list<Pack> container] *)
Definition container := list Pack.t.

(** The private members: the underlying storage for the packs, the name
    of the query found executing at initialization, and the blacklist, a
    [std::map<std::string, size_t>] whose counters are kept as natural
    numbers. *)
Record t := mk {
  packs_ : container;
  failed_query_ : string;
  blacklist_ : gmap string N
}.

(** Recording one query found dirty: it becomes the failed query and its
    blacklist counter is incremented. *)
Definition record_failed (q : string) (s : t) : t :=
  mk (packs_ s) q (<[q := N.succ (default 0%N (blacklist_ s !! q))]> (blacklist_ s)).

(** Modelled from the spec: the constructor [Schedule()] is declared in the
    header and defined in config.cpp.  It starts from no pack and the
    stored blacklist, and records every query whose dirty bit is still set
    in the backing store. *)
Definition create (db : Database.t) : t :=
  set_fold record_failed (mk [] "" (Database.blacklist db)) (Database.dirty db).

(** [std::list::remove_if]: erase every element the predicate accepts, the
    others keep their relative order. *)
Fixpoint remove_if (pred : Pack.t -> bool) (l : container) : container :=
  match l with
  | [] => []
  | p :: r => if pred p then remove_if pred r else p :: remove_if pred r
  end.

(** The lambda passed to [remove_if]:
    [(p.getName() == pack) && (p.getSource() == source)]. *)
Definition same_ident (pack source : string) (p : Pack.t) : bool :=
  bool_decide (Pack.getName p = pack) && bool_decide (Pack.getSource p = source).

(** [void remove(const std::string& pack, const std::string& source)] *)
Definition remove2 (pack source : string) (s : t) : t :=
  mk (remove_if (same_ident pack source) (packs_ s))
     (failed_query_ s) (blacklist_ s).

(** [void remove(const std::string& pack) { remove(pack, ""); }] *)
Definition remove (pack : string) (s : t) : t := remove2 pack "" s.

(** [void add(const Pack& pack)]: remove, then [push_back]. *)
Definition add (pack : Pack.t) (s : t) : t :=
  let s' := remove2 (Pack.getName pack) (Pack.getSource pack) s in
  mk (packs_ s' ++ [pack]) (failed_query_ s') (blacklist_ s').

(** The two identity components compared by [remove]. *)
Definition ident (p : Pack.t) : string * string :=
  (Pack.getName p, Pack.getSource p).

(** The identities stored in a schedule. *)
Definition idents (s : t) : list (string * string) := List.map ident (packs_ s).

Section Iteration.
(** [Pack::shouldPackExecute] lives in packs.h; it reads the facts of the
    host (platform, version, flags), which are passed explicitly here. *)
Context {HostFacts : Type}.
Variable shouldPackExecute : HostFacts -> Pack.t -> bool.

(** [struct Step]: the predicate of the filter iterator. *)
Definition Step (h : HostFacts) (pack : Pack.t) : bool :=
  shouldPackExecute h pack.

(** A [boost::filter_iterator<Step, container::iterator>] is a pair of
    a current position and the end of the range; the position is kept
    here as the suffix of the list that starts at it.  The empty suffix
    is the end position. *)
Definition iterator := list Pack.t.

(** [filter_iterator::satisfy_predicate]: advance while not at the end
    and the predicate rejects the current element. *)
Fixpoint satisfy_predicate (h : HostFacts) (it : iterator) : iterator :=
  match it with
  | [] => []
  | p :: r => if Step h p then it else satisfy_predicate h r
  end.

(** [iterator begin()] and [iterator end()] *)
Definition begin (h : HostFacts) (s : t) : iterator :=
  satisfy_predicate h (packs_ s).
Definition end_ (s : t) : iterator := [].

(** [operator++]: step the base iterator once, then skip. *)
Definition increment (h : HostFacts) (it : iterator) : iterator :=
  satisfy_predicate h (tl it).

(** Dereferencing the iterator gives the pack at the position. *)
Definition dereference (it : iterator) : option Pack.t := head it.

Definition at_end (it : iterator) : bool :=
  match it with [] => true | _ => false end.

(** The client loop: start at [begin()], visit the current pack and
    increment until the iterator equals [end()].  The number of loop
    turns is bounded; [None] when the bound is hit. *)
Fixpoint loop (fuel : nat) (h : HostFacts) (it : iterator)
  : option (list Pack.t) :=
  match fuel with
  | O => None
  | S fuel' =>
      if at_end it then Some []
      else match dereference it with
           | None => None
           | Some p => cons p <$> loop fuel' h (increment h it)
           end
  end.

(** One full pass over the schedule. *)
Definition pass (h : HostFacts) (s : t) : option (list Pack.t) :=
  loop (S (length (packs_ s))) h (begin h s).

(** The iterator obtained from [begin()] by [k] increments. *)
Definition advance (h : HostFacts) (k : nat) (s : t) : iterator :=
  Nat.iter k (increment h) (begin h s).
End Iteration.

(** The operations a client can apply to a schedule. *)
Inductive op :=
| Add (p : Pack.t)
| Remove (name : string)
| Remove2 (name source : string).

Definition apply (o : op) (s : t) : t :=
  match o with
  | Add p => add p s
  | Remove n => remove n s
  | Remove2 n src => remove2 n src s
  end.

Definition run (ops : list op) (s : t) : t := fold_left (fun s o => apply o s) ops s.

(** The operation names the identity [i]: it adds a pack of that identity
    or removes the packs of that identity. *)
Definition touches (i : string * string) (o : op) : bool :=
  match o with
  | Add p => bool_decide (ident p = i)
  | Remove n => bool_decide ((n, "") = i)
  | Remove2 n src => bool_decide ((n, src) = i)
  end.

End Schedule.

(** ** Maps iterated in key order

    A [std::map<std::string, T>] is kept as a [gmap string T]; a C++ range
    loop over it visits the entries by increasing key, in the byte-wise
    lexical order of [std::string].  [in_order] lists the entries of a map
    that way. *)

Definition str_lt (a b : string) : Prop := String.compare a b = Lt.

Fixpoint ordered_insert {A} (k : string) (v : A) (l : list (string * A))
  : list (string * A) :=
  match l with
  | [] => [(k, v)]
  | (k', v') :: r =>
      match String.compare k k' with
      | Lt => (k, v) :: l
      | Eq => (k, v) :: r
      | Gt => (k', v') :: ordered_insert k v r
      end
  end.

(** Entries are ordered by their keys. *)
Definition entry_lt {A} (x y : string * A) : Prop := str_lt x.1 y.1.

Definition in_order {A} (m : gmap string A) : list (string * A) :=
  foldr (fun kv acc => ordered_insert kv.1 kv.2 acc) [] (map_to_list m).

(** The concatenation of a sequence of strings. *)
Definition cat (l : list string) : string := foldr String.append "" l.

(** ** Configuration trees

    Modelled from the spec: [boost::property_tree::ptree] is an external
    type; the configuration value is the tagged tree of the specification
    (object, array, string, number, bool, null).  An object keeps its
    members in document order and is read by first match. *)

#[warnings="-register-all"]
Inductive ptree :=
| PNull
| PBool (b : bool)
| PNum (z : Z)
| PStr (s : string)
| PArr (items : list ptree)
| PObj (fields : list (string * ptree)).

Fixpoint assoc {A} (k : string) (l : list (string * A)) : option A :=
  match l with
  | [] => None
  | (k', v) :: r => if String.eqb k k' then Some v else assoc k r
  end.

Definition has_key {A} (k : string) (l : list (string * A)) : bool :=
  match assoc k l with Some _ => true | None => false end.

Definition is_leaf (t : ptree) : bool :=
  match t with
  | PArr _ | PObj _ => false
  | _ => true
  end.

Definition is_array (t : ptree) : bool :=
  match t with PArr _ => true | _ => false end.

Definition array_items (t : ptree) : list ptree :=
  match t with PArr l => l | _ => [] end.

(** The subtree reached by following the keys of [p] through objects. *)
Fixpoint get_path (p : list string) (t : ptree) : option ptree :=
  match p with
  | [] => Some t
  | k :: r =>
      match t with
      | PObj f => match assoc k f with
                  | Some t' => get_path r t'
                  | None => None
                  end
      | _ => None
      end
  end.

(** Modelled from the spec: the merge precedence rule of the merge
    algorithm, whose code is in config.cpp.  [merge_tree a b] combines the
    value [a] of the earlier sources with the value [b] of a later source:
    two objects are merged key by key, recursively; two arrays are
    concatenated; in every other case the later value replaces the earlier
    one. *)
Fixpoint merge_tree (a b : ptree) {struct a} : ptree :=
  match a, b with
  | PObj fa, PObj fb =>
      PObj ((fix on_fields (l : list (string * ptree)) :=
               match l with
               | [] => []
               | (k, va) :: r =>
                   (k, match assoc k fb with
                       | Some vb => merge_tree va vb
                       | None => va
                       end) :: on_fields r
               end) fa
            ++ List.filter (fun kv => negb (has_key kv.1 fa)) fb)
  | PArr la, PArr lb => PArr (la ++ lb)
  | _, _ => b
  end.

(** The fields of [merge_tree (PObj fa) (PObj fb)] that come from [fa]. *)
Definition merge_fields (fa fb : list (string * ptree)) : list (string * ptree) :=
  List.map (fun kv => (kv.1, match assoc kv.1 fb with
                             | Some vb => merge_tree kv.2 vb
                             | None => kv.2
                             end)) fa.

(** Merging the values of one top-level key over all the sources that
    provide it, from the first to the last. *)
Definition merge_all (ts : list ptree) : option ptree :=
  match ts with
  | [] => None
  | t :: r => Some (fold_left merge_tree r t)
  end.

(** [m] maps each source identifier to the value it gives to the key; the
    values are merged in the lexical order of the source identifiers. *)
Definition merge_sources (m : gmap string ptree) : option ptree :=
  merge_all (in_order m).*2.

(** A later source leaves the path [p] alone: it has no member on the way
    to [p], so merging it cannot replace what an earlier source put
    there. *)
Fixpoint untouched (p : list string) (t : ptree) : bool :=
  match p with
  | [] => false
  | k :: r =>
      match t with
      | PObj f => match assoc k f with
                  | Some t' => untouched r t'
                  | None => true
                  end
      | _ => false
      end
  end.

(** ** QueryPerformance and the result rows of the process table

    Modelled from the spec: [QueryPerformance] and [Row] are declared in
    other headers.  The record keeps the cumulative wall time, the
    cumulative output size and the dirty bit. *)

Record QueryPerformance := mkQueryPerformance {
  wall_time : N;
  output_size : N;
  is_dirty : bool
}.

Definition Row := gmap string string.

(** ** ConfigPlugin *)

Module ConfigPlugin.

(** [genConfig] fills the map passed by reference and returns a status;
    the value here is the status together with the content of the map
    when the call returns.  [genPack] does the same with its string. *)
Record t := mk {
  genConfig : Status.t * gmap string string;
  genPack : string -> string -> Status.t * string
}.

(** Modelled from the spec: the body of the non-pure virtual
    [ConfigPlugin::genPack] is in config.cpp; the header documents that
    the default implementation returns a failed status. *)
Definition default_genPack (name value : string) : Status.t * string :=
  (Status.mk 1 "genPack is not implemented", "").

(** A plugin that implements [genConfig] only. *)
Definition with_default_genPack (config : Status.t * gmap string string) : t :=
  mk config default_genPack.

End ConfigPlugin.

(** ** ConfigParserPlugin *)

Module ConfigParserPlugin.

(** [keys] and [update] are the two pure virtual members; [update] may
    read and replace the protected member [data_]. *)
Record t := mk {
  keys : list string;
  update : ptree -> gmap string ptree -> Status.t * ptree;
  data_ : ptree
}.

(** [const ptree& getData() const { return data_; }] *)
Definition getData (p : t) : ptree := data_ p.

Definition set_data (p : t) (d : ptree) : t := mk (keys p) (update p) d.

End ConfigParserPlugin.

(** ** Config *)

Module Config.

Record t := mk {
  schedule_ : Schedule.t;
  performance_ : gmap string QueryPerformance;
  files_ : gmap string (list string);
  hash_ : gmap string string;
  valid_ : bool;
  start_time_ : N
}.

(** [Config() : schedule_(Schedule()), valid_(false), start_time_(time(nullptr))]:
    the clock reading is the argument [now]. *)
Definition create (db : Database.t) (now : N) : t :=
  mk (Schedule.create db) ∅ ∅ ∅ false now.

(** [size_t getStartTime() const { return start_time_; }] *)
Definition getStartTime (c : t) : N := start_time_ c.

Definition set_schedule (c : t) (s : Schedule.t) : t :=
  mk s (performance_ c) (files_ c) (hash_ c) (valid_ c) (start_time_ c).
Definition set_performance (c : t) (p : gmap string QueryPerformance) : t :=
  mk (schedule_ c) p (files_ c) (hash_ c) (valid_ c) (start_time_ c).
Definition set_files (c : t) (f : gmap string (list string)) : t :=
  mk (schedule_ c) (performance_ c) f (hash_ c) (valid_ c) (start_time_ c).
Definition set_hash (c : t) (h : gmap string string) : t :=
  mk (schedule_ c) (performance_ c) (files_ c) h (valid_ c) (start_time_ c).
Definition set_valid (c : t) (v : bool) : t :=
  mk (schedule_ c) (performance_ c) (files_ c) (hash_ c) v (start_time_ c).

(** *** The dirty-state ledger *)

Definition fresh_performance : QueryPerformance := mkQueryPerformance 0 0 false.

(** Modelled from the spec: [Config::recordQueryStart] is defined in
    config.cpp.  It sets the dirty bit of the query's record, creating the
    record if absent, and writes the bit to the backing store at once. *)
Definition recordQueryStart (name : string) (st : t * Database.t) : t * Database.t :=
  let '(c, db) := st in
  let old := default fresh_performance (performance_ c !! name) in
  (set_performance c
     (<[name := mkQueryPerformance (wall_time old) (output_size old) true]>
        (performance_ c)),
   Database.mk ({[name]} ∪ Database.dirty db) (Database.blacklist db)).

(** Modelled from the spec: [Config::recordQueryPerformance] is defined in
    config.cpp.  It clears the dirty bit and adds the delay and the size
    to the running totals; the metrics derived from the two process rows
    are outside the three fields of the record. *)
Definition recordQueryPerformance (name : string) (delay size : N) (r0 r1 : Row)
    (st : t * Database.t) : t * Database.t :=
  let '(c, db) := st in
  let old := default fresh_performance (performance_ c !! name) in
  (set_performance c
     (<[name := mkQueryPerformance (wall_time old + delay) (output_size old + size) false]>
        (performance_ c)),
   Database.mk (Database.dirty db ∖ {[name]}) (Database.blacklist db)).

(** The calls the scheduler makes into the ledger. *)
Inductive ledger_op :=
| Start (name : string)
| Perf (name : string) (delay size : N) (r0 r1 : Row).

Definition ledger_step (st : t * Database.t) (o : ledger_op) : t * Database.t :=
  match o with
  | Start n => recordQueryStart n st
  | Perf n d s r0 r1 => recordQueryPerformance n d s r0 r1 st
  end.

Definition ledger_run (ops : list ledger_op) (st : t * Database.t) : t * Database.t :=
  fold_left ledger_step ops st.

Definition completes (q : string) (o : ledger_op) : bool :=
  match o with
  | Perf n _ _ _ _ => bool_decide (n = q)
  | Start _ => false
  end.

(** The query is marked dirty in memory and in the store. *)
Definition marked (q : string) (st : t * Database.t) : Prop :=
  q ∈ Database.dirty st.2 /\
  is_dirty <$> (performance_ st.1 !! q) = Some true.

(** A process restart: the configuration is constructed again over the
    backing store left by the previous process. *)
Definition restart (st : t * Database.t) (now : N) : t :=
  create st.2 now.

(** *** Packs and files *)

Definition as_string (t : ptree) : option string :=
  match t with PStr s => Some s | _ => None end.
Definition as_number (t : ptree) : option Z :=
  match t with PNum z => Some z | _ => None end.
Definition as_bool (t : ptree) : option bool :=
  match t with PBool b => Some b | _ => None end.

Definition string_at (k : string) (t : ptree) : string :=
  default "" (get_path [k] t ≫= as_string).

(** One entry of the "queries" object of a pack. *)
Definition scheduled_query_of (t : ptree) : ScheduledQuery :=
  mkScheduledQuery
    (string_at "query" t)
    (default 0%Z (get_path ["interval"] t ≫= as_number))
    (match t with
     | PObj f => omap (fun kv => pair kv.1 <$> as_bool kv.2) f
     | _ => []
     end).

(** The pack object: version, platform and queries. *)
Definition pack_of (name source : string) (tree : ptree) : Pack.t :=
  Pack.mk name source (string_at "platform" tree) (string_at "version" tree)
    (match get_path ["queries"] tree with
     | Some (PObj qs) => List.map (fun kv => (kv.1, scheduled_query_of kv.2)) qs
     | _ => []
     end).

(** Modelled from the spec: [Config::addPack] is defined in config.cpp;
    it registers the pack built from the subtree into the schedule. *)
Definition addPack (name source : string) (tree : ptree) (c : t) : t :=
  set_schedule c (Schedule.add (pack_of name source tree) (schedule_ c)).

(** Modelled from the spec: [Config::removePack] is defined in config.cpp;
    it removes the pack of that name from the schedule. *)
Definition removePack (pack : string) (c : t) : t :=
  set_schedule c (Schedule.remove pack (schedule_ c)).

(** Modelled from the spec: [Config::addFile] is defined in config.cpp; the
    path is appended to the sequence of its category. *)
Definition addFile (category path : string) (c : t) : t :=
  set_files c (<[category := default [] (files_ c !! category) ++ [path]]> (files_ c)).

(** Modelled from the spec: the (category, path) pairs under the
    "file_paths" key of a document, in document order; a category whose value is not a list, and a member
    of a list that is not a string, give nothing. *)
Definition file_entries (fields : list (string * ptree)) : list (string * string) :=
  match assoc "file_paths" fields with
  | Some (PObj cats) =>
      flat_map (fun kv => match kv.2 with
                          | PArr items => pair kv.1 <$> omap as_string items
                          | _ => []
                          end) cats
  | _ => []
  end.

(** Modelled from the spec: the files registry is rebuilt from what every
    source contributes last; the paths are added by increasing source, so
    that the lists of a category are appended across sources. *)
Definition collect_files (fs : gmap string (list (string * string))) (c : t) : t :=
  fold_left (fun c cp => addFile cp.1 cp.2 c) (concat (in_order fs).*2) (set_files c ∅).

(** Modelled from the spec: the packs that a source contributed before
    are superseded when the source is applied again; [Config] is a friend of [Schedule] and
    erases them from [packs_]. *)
Definition supersede_packs (source : string) (c : t) : t :=
  set_schedule c
    (Schedule.mk
       (Schedule.remove_if (fun p => bool_decide (Pack.getSource p = source))
          (Schedule.packs_ (schedule_ c)))
       (Schedule.failed_query_ (schedule_ c))
       (Schedule.blacklist_ (schedule_ c))).

(** *** The parser registry *)

(** One call of [ConfigParserPlugin::update] made by the engine. *)
Record update_call := mkCall {
  call_parser : string;
  call_config : gmap string ptree;
  call_result : Status.t
}.

(** The configuration, the registered parsers by name, the names of the
    parsers that are no longer updated, and the file paths that each
    source contributed last. *)
Record engine := mkEngine {
  config : t;
  parsers : list (string * ConfigParserPlugin.t);
  disabled : gset string;
  file_sources : gmap string (list (string * string))
}.

(** What one load or update cycle returns and does: the status, the engine
    afterwards, the merged configuration it dispatched and the parser
    calls it made. *)
Record cycle_result := mkResult {
  status : Status.t;
  after : engine;
  merged : gmap string ptree;
  calls : list update_call
}.

(** The state threaded through the sources of one cycle: the
    configuration, the file paths by source, the remaining keys grouped
    by key and by source, and the number of sources applied so far. *)
Record progress := mkProgress {
  p_config : t;
  p_files : gmap string (list (string * string));
  p_grouped : gmap string (gmap string (ptree));
  p_applied : nat
}.

(** The subtrees for the requested keys that are present. *)
Definition requested (ks : list string) (m : gmap string ptree) : gmap string ptree :=
  filter (fun kv => kv.1 ∈ ks) m.

(** Modelled from the spec: the dispatch of the merged configuration, which
    config.cpp does at the end of an update.  Every parser that is still
    enabled and requests a present key is updated once; a parser that
    returns failure is disabled. *)
Fixpoint dispatch (m : gmap string ptree) (ps : list (string * ConfigParserPlugin.t))
    (dis : gset string)
  : list (string * ConfigParserPlugin.t) * gset string * list update_call :=
  match ps with
  | [] => ([], dis, [])
  | (n, p) :: r =>
      let cfg := requested (ConfigParserPlugin.keys p) m in
      if bool_decide (n ∈ dis) || bool_decide (cfg = ∅) then
        let '(r', dis', log) := dispatch m r dis in
        ((n, p) :: r', dis', log)
      else
        let '(st, d) := ConfigParserPlugin.update p (ConfigParserPlugin.data_ p) cfg in
        let '(r', dis', log) :=
          dispatch m r (if Status.ok st then dis else {[n]} ∪ dis) in
        ((n, ConfigParserPlugin.set_data p d) :: r', dis', mkCall n cfg st :: log)
  end.

Section Loading.
(** The parser of the structured document and the digest primitive are
    external; [parse] gives [None] on a document that is not well
    formed. *)
Variable parse : string -> option ptree.
Variable digest : string -> string.

(** Modelled from the spec: [Config::hashSource] is defined in
    config.cpp; the digest of the content is stored under the source. *)
Definition hashSource (source content : string) (c : t) : t :=
  set_hash c (<[source := digest content]> (hash_ c)).

(** The concatenation of the per-source digests by increasing source. *)
Definition aggregate (c : t) : string := cat (in_order (hash_ c)).*2.

(** Modelled from the spec: [Config::getMD5] is defined in config.cpp.
    It fails while no load or update has succeeded; otherwise the result
    is the digest of the per-source digests concatenated by increasing
    source.  The second component is the value written to the output
    parameter, if any. *)
Definition getMD5 (c : t) : Status.t * option string :=
  if valid_ c then (Status.OK, Some (digest (aggregate c)))
  else (Status.mk 1 "Current config is not valid", None).

(** [bool isValid()] *)
Definition isValid (c : t) : bool := valid_ c.

(** The pack content behind one entry of the "packs" object: the inline
    object itself, or what the active plugin resolves a string into. *)
Definition resolve_pack (active : ConfigPlugin.t) (name : string) (value : ptree)
  : option ptree :=
  match value with
  | PObj _ => Some value
  | PStr ref =>
      let '(st, content) := ConfigPlugin.genPack active name ref in
      if Status.ok st then parse content else None
  | _ => None
  end.

Definition discover_pack (active : ConfigPlugin.t) (source : string)
    (c : t) (entry : string * ptree) : t :=
  match resolve_pack active entry.1 entry.2 with
  | Some tree => addPack entry.1 source tree c
  | None => c
  end.

Definition discover_packs (active : ConfigPlugin.t) (source : string)
    (entries : list (string * ptree)) (c : t) : t :=
  fold_left (discover_pack active source) entries c.

(** The entries of the "packs" object of a document. *)
Definition pack_entries (fields : list (string * ptree)) : list (string * ptree) :=
  match assoc "packs" fields with
  | Some (PObj ps) => ps
  | _ => []
  end.

Definition reserved (k : string) : bool :=
  String.eqb k "packs" || String.eqb k "file_paths".

(** The values of the remaining top-level keys, grouped by key and then
    by source. *)
Definition group (source : string) (fields : list (string * ptree))
    (g : gmap string (gmap string ptree)) : gmap string (gmap string ptree) :=
  foldr (fun kv g =>
           if reserved kv.1 then g
           else <[kv.1 := <[source := kv.2]> (default ∅ (g !! kv.1))]> g)
        g fields.

(** The document of a source is applied when it parses to an object. *)
Definition applies (json : string) : bool :=
  match parse json with Some (PObj _) => true | _ => false end.

(** The value that the document of a source gives to a remaining
    top-level key. *)
Definition value_of (k : string) (json : string) : option ptree :=
  match parse json with
  | Some (PObj fields) => if reserved k then None else assoc k fields
  | _ => None
  end.

(** The sources that provide the key [k], each with its value. *)
Definition providers (k : string) (srcs : gmap string string) : gmap string ptree :=
  omap (value_of k) srcs.

(** Modelled from the spec: [Config::updateSource] is defined in
    config.cpp.  A content that does not parse to an object is skipped
    with a failed status and changes nothing.  Otherwise the digest of
    the content is stored, the packs and the file paths that the source
    contributed before are superseded by those of the document, and the
    other keys are grouped. *)
Definition updateSource (active : ConfigPlugin.t) (name json : string)
    (pr : progress) : Status.t * progress :=
  match parse json with
  | Some (PObj fields) =>
      let c1 := hashSource name json (p_config pr) in
      let c2 := discover_packs active name (pack_entries fields)
                  (supersede_packs name c1) in
      let fs := <[name := file_entries fields]> (p_files pr) in
      (Status.OK,
       mkProgress (collect_files fs c2) fs (group name fields (p_grouped pr))
         (S (p_applied pr)))
  | _ => (Status.mk 1 "Error parsing the config JSON", pr)
  end.

(** Modelled from the spec: the sources of a cycle are applied one after
    the other, by increasing identifier. *)
Definition apply_sources (active : ConfigPlugin.t) (srcs : gmap string string)
    (e : engine) : progress :=
  fold_left (fun pr kv => (updateSource active kv.1 kv.2 pr).2)
            (in_order srcs) (mkProgress (config e) (file_sources e) ∅ 0).

(** Modelled from the spec: [Config::update] is defined in config.cpp.
    Every source is processed by increasing identifier and a source that
    fails to parse is skipped.  The cycle succeeds when at least one
    source has been applied: the grouped keys are then merged across
    sources and dispatched, and the configuration becomes valid.  When no
    source has been applied the cycle fails and changes nothing. *)
Definition update (active : ConfigPlugin.t) (srcs : gmap string string)
    (e : engine) : cycle_result :=
  let pr := apply_sources active srcs e in
  if Nat.eqb (p_applied pr) 0 then
    mkResult (Status.mk 1 "No config source could be parsed") e ∅ []
  else
    let m := omap merge_sources (p_grouped pr) in
    let '(ps, dis, log) := dispatch m (parsers e) (disabled e) in
    mkResult Status.OK (mkEngine (set_valid (p_config pr) true) ps dis (p_files pr)) m log.

(** Modelled from the spec: [Config::load] is defined in config.cpp.  The
    active plugin retrieves the sources; on failure nothing else
    happens, otherwise the retrieved map is applied by [update]. *)
Definition load (active : ConfigPlugin.t) (e : engine) : cycle_result :=
  let '(st, srcs) := ConfigPlugin.genConfig active in
  if Status.ok st then update active srcs e
  else mkResult st e ∅ [].

(** A cycle is a load through the active plugin or an update it pushes. *)
Inductive cycle :=
| Load (active : ConfigPlugin.t)
| Update (active : ConfigPlugin.t) (srcs : gmap string string).

Definition run_cycle (c : cycle) (e : engine) : cycle_result :=
  match c with
  | Load a => load a e
  | Update a srcs => update a srcs e
  end.

(** The results of a sequence of cycles, each run on the engine left by
    the one before. *)
Fixpoint run_cycles (cs : list cycle) (e : engine) : list cycle_result :=
  match cs with
  | [] => []
  | c :: r => let res := run_cycle c e in res :: run_cycles r (after res)
  end.

Definition final (cs : list cycle) (e : engine) : engine :=
  fold_left (fun e c => after (run_cycle c e)) cs e.
End Loading.

End Config.

(** ** Sample data

    Concrete packs, hosts and plugins on which the properties below are
    instantiated. *)

Module Sample.

(** A host is described here by its platform; a pack applies when its
    platform constraint is empty or names the platform of the host. *)
Definition platform_applies (host : string) (p : Pack.t) : bool :=
  String.eqb (Pack.getPlatform p) "" || String.eqb (Pack.getPlatform p) host.

Definition linux_pack : Pack.t := Pack.mk "foo" "" "linux" "" [].
Definition custom_pack : Pack.t := Pack.mk "foo" "custom" "" "" [].
Definition empty_schedule : Schedule.t := Schedule.mk [] "" ∅.

(** A second version of the Linux pack, a pack for Darwin and a pack for
    every host under other names, and a schedule of three packs with
    recorded failure state. *)
Definition linux_pack_v2 : Pack.t := Pack.mk "foo" "" "linux" "2.0" [].
Definition darwin_pack : Pack.t := Pack.mk "bar" "" "darwin" "" [].
Definition other_pack : Pack.t := Pack.mk "baz" "" "" "" [].
Definition three_packs : Schedule.t :=
  Schedule.mk [linux_pack; darwin_pack; custom_pack] "q" {["q" := 1%N]}.

(** A document reader that knows a few documents, a digest that tags its
    input, and a digest of fixed size, the sum of the bytes modulo 256. *)
Definition read (json : string) : option ptree :=
  if String.eqb json "A" then
    Some (PObj [("options", PObj [("verbose", PBool true)]);
                ("packs", PObj [("p1", PStr "/etc/p1.conf");
                                ("p2", PObj [("platform", PStr "linux")])])])
  else if String.eqb json "B" then
    Some (PObj [("options", PObj [("verbose", PBool false)])])
  else if String.eqb json "P" then
    Some (PObj [("platform", PStr "darwin")])
  else if String.eqb json "AB" then
    Some (PObj [("options", PObj [("verbose", PBool true)])])
  else if String.eqb json "BA" then
    Some (PObj [("options", PObj [("verbose", PBool false)])])
  else if String.eqb json "F1" then
    Some (PObj [("file_paths", PObj [("etc", PArr [PStr "/etc/%%"])]);
                ("packs", PObj [("p1", PObj [("version", PStr "1.0")])])])
  else if String.eqb json "F2" then
    Some (PObj [("file_paths", PObj [("etc", PArr [PStr "/etc/passwd"])]);
                ("packs", PObj [("p2", PObj [("version", PStr "2.0")])])])
  else if String.eqb json "Q" then
    Some (PObj [("packs",
                 PObj [("p1", PObj [("queries",
                                     PObj [("q1", PObj [("query", PStr "select 1");
                                                        ("interval", PNum 60)])])])])])
  else None.

Definition tag (content : string) : string := String "#"%char content.

Fixpoint byte_sum (content : string) : nat :=
  match content with
  | EmptyString => 0
  | String a r => nat_of_ascii a + byte_sum r
  end.

Definition checksum (content : string) : string :=
  String (ascii_of_nat (byte_sum content)) EmptyString.

Definition sources_A : gmap string string := {["s" := "A"]}.

(** A plugin whose retrieval fails after it has filled the map, and one
    whose retrieval succeeds; both keep the default [genPack]. *)
Definition unreachable : ConfigPlugin.t :=
  ConfigPlugin.with_default_genPack (Status.mk 1 "unreachable", sources_A).
Definition reachable : ConfigPlugin.t :=
  ConfigPlugin.with_default_genPack (Status.OK, sources_A).
Definition changed : ConfigPlugin.t :=
  ConfigPlugin.with_default_genPack (Status.OK, <["s" := "B"]> sources_A).


(** A parser for "options" that rejects every update, and one that stores
    what it receives. *)
Definition rejecting : ConfigParserPlugin.t :=
  ConfigParserPlugin.mk ["options"] (fun d _ => (Status.mk 1 "rejected", d)) PNull.
Definition storing : ConfigParserPlugin.t :=
  ConfigParserPlugin.mk ["options"]
    (fun _ cfg => (Status.OK, default PNull (cfg !! "options"))) PNull.

(** The values three sources give to the key "options", and the values
    two sources give to a list-valued key. *)
Definition options_by_source : gmap string ptree :=
  {[ "c" := PObj [("port", PNum 8080)];
     "a" := PObj [("verbose", PBool true); ("port", PNum 80)];
     "b" := PObj [("verbose", PBool false)] ]}.

Definition lists_by_source : gmap string ptree :=
  {[ "b" := PArr [PNum 2; PNum 3];
     "a" := PArr [PNum 1; PNum 2] ]}.

Definition fresh_engine : Config.engine :=
  Config.mkEngine (Config.create Database.empty 0)
    [("rejecting", rejecting); ("storing", storing)] ∅ ∅.


End Sample.

(** * Properties *)

(** ** Schedule: removal and insertion *)

Section ScheduleFacts.
Import Schedule.

Lemma remove_if_filter pred l :
  remove_if pred l = List.filter (fun p => negb (pred p)) l.
Proof.
  induction l as [|p r IH]; simpl; [reflexivity|].
  destruct (pred p); simpl; congruence.
Qed.

Lemma In_remove_if pred l x :
  In x (remove_if pred l) <-> In x l /\ pred x = false.
Proof.
  rewrite remove_if_filter, filter_In.
  destruct (pred x); simpl; intuition congruence.
Qed.

Lemma remove_if_length pred l : length (remove_if pred l) <= length l.
Proof.
  induction l as [|p r IH]; simpl; [lia|]. destruct (pred p); simpl; lia.
Qed.

Lemma same_ident_true n src p :
  same_ident n src p = true <-> ident p = (n, src).
Proof.
  unfold same_ident, ident.
  rewrite andb_true_iff, !bool_decide_eq_true.
  split; [intros [-> ->]; reflexivity | intros [= -> ->]; auto].
Qed.

Lemma same_ident_false n src p :
  same_ident n src p = false <-> ident p <> (n, src).
Proof.
  rewrite <- same_ident_true. destruct (same_ident n src p); intuition congruence.
Qed.

Lemma packs_remove2 n src s :
  packs_ (remove2 n src s) = remove_if (same_ident n src) (packs_ s).
Proof. reflexivity. Qed.

Lemma packs_add p s :
  packs_ (add p s)
  = remove_if (same_ident (Pack.getName p) (Pack.getSource p)) (packs_ s) ++ [p].
Proof. reflexivity. Qed.

(** Membership after [remove]: exactly the packs of another identity. *)
Lemma In_remove2 n src s x :
  In x (packs_ (remove2 n src s)) <-> In x (packs_ s) /\ ident x <> (n, src).
Proof. rewrite packs_remove2, In_remove_if, same_ident_false. reflexivity. Qed.

Lemma In_add p s x :
  In x (packs_ (add p s)) <-> x = p \/ (In x (packs_ s) /\ ident x <> ident p).
Proof.
  rewrite packs_add, in_app_iff, In_remove_if, same_ident_false. simpl.
  unfold ident at 3. intuition congruence.
Qed.

Lemma idents_remove_if pred l :
  NoDup (List.map ident l) -> NoDup (List.map ident (remove_if pred l)).
Proof.
  induction l as [|p r IH]; simpl; intros H; [constructor|].
  apply NoDup_cons in H as [Hnin Hr].
  destruct (pred p); simpl; [auto|].
  apply NoDup_cons. split; [|auto].
  intros Hin. apply Hnin.
  apply list_elem_of_In, in_map_iff in Hin as (y & Hy & Hin).
  apply In_remove_if in Hin as [Hin _].
  apply list_elem_of_In, in_map_iff. eauto.
Qed.

Lemma unique_remove2 n src s :
  NoDup (idents s) -> NoDup (idents (remove2 n src s)).
Proof. apply idents_remove_if. Qed.

Lemma unique_add p s :
  NoDup (idents s) -> NoDup (idents (add p s)).
Proof.
  intros H. unfold idents. rewrite packs_add, map_app. simpl.
  apply NoDup_app. split; [apply idents_remove_if, H|].
  split; [|apply NoDup_singleton].
  intros i Hin Hi. apply list_elem_of_In in Hin.
  apply list_elem_of_singleton in Hi. subst i.
  apply in_map_iff in Hin as (y & Hy & Hin).
  apply In_remove_if in Hin as [_ Hf].
  apply same_ident_false in Hf. apply Hf. exact Hy.
Qed.

Lemma unique_apply o s : NoDup (idents s) -> NoDup (idents (apply o s)).
Proof.
  destruct o; simpl; [apply unique_add | apply unique_remove2 | apply unique_remove2].
Qed.

Lemma unique_run ops s : NoDup (idents s) -> NoDup (idents (run ops s)).
Proof.
  revert s. induction ops as [|o ops IH]; intros s H; simpl; [exact H|].
  apply IH, unique_apply, H.
Qed.

Lemma packs_record_failed q s : packs_ (record_failed q s) = packs_ s.
Proof. reflexivity. Qed.

Lemma packs_create db : packs_ (create db) = [].
Proof.
  unfold create.
  apply (set_fold_ind_L (fun s _ => packs_ s = [])); [reflexivity|].
  intros q X s _ H. rewrite packs_record_failed. exact H.
Qed.

(** Removing the only pack of an identity shortens the list by one. *)
Lemma remove_if_unique_length n src l p0 :
  NoDup (List.map ident l) -> In p0 l -> ident p0 = (n, src) ->
  S (length (remove_if (same_ident n src) l)) = length l.
Proof.
  induction l as [|p r IH]; simpl; intros Hnd Hin Hid; [contradiction|].
  apply NoDup_cons in Hnd as [Hnin Hr].
  destruct (same_ident n src p) eqn:Hs.
  - f_equal.
    apply same_ident_true in Hs.
    assert (Hall : forall x, In x r -> same_ident n src x = false).
    { intros x Hx. apply same_ident_false. intros Hxi. apply Hnin.
      rewrite Hs, <- Hxi. apply list_elem_of_In, in_map, Hx. }
    clear -Hall. induction r as [|x r IHr]; simpl; [reflexivity|].
    rewrite (Hall x) by (left; reflexivity). simpl. f_equal.
    apply IHr. intros y Hy. apply Hall. right. exact Hy.
  - simpl. f_equal. destruct Hin as [->|Hin].
    + apply same_ident_true in Hid. congruence.
    + apply IH; assumption.
Qed.

Lemma filter_remove_if_same n src l :
  List.filter (same_ident n src) (remove_if (same_ident n src) l) = [].
Proof.
  induction l as [|p r IH]; simpl; [reflexivity|].
  destruct (same_ident n src p) eqn:Hs; simpl; [exact IH|].
  rewrite Hs. exact IH.
Qed.

Lemma same_ident_self p : same_ident (Pack.getName p) (Pack.getSource p) p = true.
Proof. apply same_ident_true. reflexivity. Qed.

Lemma filter_add_same p s :
  List.filter (same_ident (Pack.getName p) (Pack.getSource p)) (packs_ (add p s)) = [p].
Proof.
  rewrite packs_add, List.filter_app, filter_remove_if_same. simpl.
  rewrite same_ident_self. reflexivity.
Qed.
End ScheduleFacts.

(** ** Schedule: the filtered iteration *)

Section IterationFacts.
Import Schedule.
Context {HostFacts : Type}.
Variable shouldPackExecute : HostFacts -> Pack.t -> bool.

Local Abbreviation Step := (Step shouldPackExecute).
Local Abbreviation satisfy_predicate := (satisfy_predicate shouldPackExecute).
Local Abbreviation loop := (loop shouldPackExecute).
Local Abbreviation pass := (pass shouldPackExecute).

Lemma satisfy_predicate_filter h l :
  List.filter (Step h) (satisfy_predicate h l) = List.filter (Step h) l.
Proof.
  induction l as [|p r IH]; simpl; [reflexivity|].
  destruct (Step h p) eqn:Hp; simpl; rewrite ?Hp; auto.
Qed.

Lemma satisfy_predicate_length h l : length (satisfy_predicate h l) <= length l.
Proof.
  induction l as [|p r IH]; simpl; [lia|].
  destruct (Step h p); simpl; lia.
Qed.

(** After skipping, the iterator is at the end or on an accepted pack. *)
Lemma satisfy_predicate_head h l :
  match satisfy_predicate h l with
  | [] => True
  | p :: _ => Step h p = true
  end.
Proof.
  induction l as [|p r IH]; simpl; [exact I|].
  destruct (Step h p) eqn:Hp; [exact Hp | exact IH].
Qed.

(** From a position reached by skipping, the loop ends within as many
    turns as packs are left, plus the last test, and has visited the
    accepted packs in the order of the list. *)
Lemma loop_filter h fuel l :
  length (satisfy_predicate h l) < fuel ->
  loop fuel h (satisfy_predicate h l) = Some (List.filter (Step h) l).
Proof.
  revert l. induction fuel as [|fuel IH]; intros l Hlen; [lia|].
  rewrite <- satisfy_predicate_filter.
  pose proof (satisfy_predicate_head h l) as Hhead.
  destruct (satisfy_predicate h l) as [|p r] eqn:Hs; simpl; [reflexivity|].
  rewrite Hhead. unfold increment. simpl.
  rewrite IH.
  - reflexivity.
  - pose proof (satisfy_predicate_length h r). simpl in Hlen. lia.
Qed.

Lemma pass_filter h s : pass h s = Some (List.filter (Step h) (packs_ s)).
Proof.
  unfold pass, begin. apply loop_filter.
  pose proof (satisfy_predicate_length h (packs_ s)). lia.
Qed.

(** C5: for every schedule, one pass yields exactly the packs whose
    predicate holds under the host facts of the pass, in container order;
    and when the predicate of a stored pack differs between the facts of
    two passes over the same schedule, the two passes yield different
    sequences. *)
Theorem iteration_yields_applicable_packs (s : t) :
  (forall h, pass h s = Some (List.filter (shouldPackExecute h) (packs_ s))) /\
  (forall h l, pass h s = Some l ->
     forall x, In x l <-> In x (packs_ s) /\ shouldPackExecute h x = true) /\
  (forall h1 h2 p,
     In p (packs_ s) ->
     shouldPackExecute h1 p <> shouldPackExecute h2 p ->
     pass h1 s <> pass h2 s).
Proof.
  split; [intros h; apply pass_filter|]. split.
  - intros h l Hl x. rewrite pass_filter in Hl. injection Hl as <-.
    apply filter_In.
  - intros h1 h2 p Hin Hflip. rewrite !pass_filter. intros [= Heq].
    assert (Hiff : In p (List.filter (Schedule.Step shouldPackExecute h1) (packs_ s))
                   <-> In p (List.filter (Schedule.Step shouldPackExecute h2) (packs_ s)))
      by (rewrite Heq; reflexivity).
    rewrite !filter_In in Hiff. unfold Schedule.Step in Hiff.
    destruct (shouldPackExecute h1 p), (shouldPackExecute h2 p);
      try congruence; intuition congruence.
Qed.

(** C10: a pack whose predicate is false is stored by [add] all the same;
    the pass does not yield it; [remove] with its name and source removes
    it, and [add] with the same name and source replaces it. *)
Theorem membership_independent_of_applicability
    (s : t) (h : HostFacts) (p : Pack.t) :
  shouldPackExecute h p = false ->
  In p (packs_ (add p s)) /\
  (exists l, pass h (add p s) = Some l /\ ~ In p l) /\
  (forall x, In x (packs_ (remove2 (Pack.getName p) (Pack.getSource p) (add p s)))
             <-> In x (packs_ s) /\ ident x <> ident p) /\
  (forall p', ident p' = ident p ->
     List.filter (same_ident (Pack.getName p) (Pack.getSource p))
                 (packs_ (add p' (add p s))) = [p'] /\
     length (packs_ (add p' (add p s))) = length (packs_ (add p s))).
Proof.
  intros Hfalse. split; [apply In_add; left; reflexivity|]. split; [|split].
  - eexists. split; [apply pass_filter|].
    rewrite filter_In. unfold Schedule.Step. rewrite Hfalse.
    intros [_ H]. discriminate.
  - intros x. rewrite In_remove2, In_add. fold (ident p).
    intuition congruence.
  - intros p' Hid. unfold ident in Hid. injection Hid as Hn Hs.
    split.
    + rewrite <- Hn, <- Hs. apply filter_add_same.
    + rewrite (packs_add p' (add p s)), Hn, Hs, packs_add.
      rewrite remove_if_filter, List.filter_app, <- remove_if_filter.
      simpl. rewrite same_ident_self. simpl.
      rewrite app_nil_r, !length_app. simpl.
      rewrite remove_if_filter, <- remove_if_filter.
      f_equal.
      assert (Hidem : forall pr l, remove_if pr (remove_if pr l) = remove_if pr l).
      { intros pr l. induction l as [|y l IHl]; simpl; [reflexivity|].
        destruct (pr y) eqn:Hy; simpl; rewrite ?Hy; congruence. }
      rewrite Hidem. reflexivity.
Qed.
End IterationFacts.

Import Sample.

Lemma iteration_yields_applicable_packs_witness :
  Schedule.pass platform_applies "linux" (Schedule.add linux_pack empty_schedule)
  <> Schedule.pass platform_applies "darwin" (Schedule.add linux_pack empty_schedule).
Proof.
  destruct (iteration_yields_applicable_packs platform_applies
              (Schedule.add linux_pack empty_schedule)) as (_ & _ & Hflip).
  apply (Hflip "linux" "darwin" linux_pack).
  - simpl. left. reflexivity.
  - vm_compute. discriminate.
Defined.

Lemma membership_independent_of_applicability_witness :
  In linux_pack (Schedule.packs_ (Schedule.add linux_pack empty_schedule)).
Proof.
  apply (membership_independent_of_applicability platform_applies
           empty_schedule "darwin" linux_pack).
  reflexivity.
Defined.

(** ** Schedule: identity of the stored packs *)

Section IdentityFacts.
Import Schedule.

(** C3: uniqueness of (name, source) is kept by every sequence of [add]
    and [remove], so it holds in every schedule built from one without
    packs; and in such a schedule, adding a pack whose name and source are
    those of a stored pack leaves the size unchanged and leaves exactly
    one pack of that identity, the new one, the packs of another identity
    being kept. *)
Theorem add_replaces_same_identity
    (s0 : t) (ops : list op) (p p0 : Pack.t) :
  NoDup (idents s0) ->
  In p0 (packs_ (run ops s0)) ->
  ident p0 = ident p ->
  length (packs_ (add p (run ops s0))) = length (packs_ (run ops s0)) /\
  List.filter (same_ident (Pack.getName p) (Pack.getSource p))
              (packs_ (add p (run ops s0))) = [p] /\
  (forall x, ident x <> ident p ->
     (In x (packs_ (add p (run ops s0))) <-> In x (packs_ (run ops s0)))) /\
  (forall ops', NoDup (idents (run ops' s0))) /\
  (forall db ops', NoDup (idents (run ops' (create db)))).
Proof.
  intros Hnd Hin Hid.
  assert (Hinv : forall ops', NoDup (idents (run ops' s0)))
    by (intros ops'; apply unique_run, Hnd).
  split; [|split; [|split; [|split]]].
  - rewrite packs_add, length_app. simpl.
    rewrite <- (remove_if_unique_length (Pack.getName p) (Pack.getSource p)
                  (packs_ (run ops s0)) p0 (Hinv ops) Hin Hid).
    lia.
  - apply filter_add_same.
  - intros x Hx. rewrite In_add. intuition congruence.
  - exact Hinv.
  - intros db ops'. apply unique_run. unfold idents. rewrite packs_create.
    constructor.
Qed.

(** C4: [remove] by name alone removes the packs of that name whose source
    is empty and no other: after adding a pack with the empty source and a
    pack of the same name with another source, it removes the first and
    keeps the second. *)
Theorem remove_by_name_only_default_source
    (s : t) (name : string) (p1 p2 : Pack.t) :
  ident p1 = (name, "") ->
  Pack.getName p2 = name ->
  Pack.getSource p2 <> "" ->
  ~ In p1 (packs_ (remove name (add p2 (add p1 s)))) /\
  In p2 (packs_ (remove name (add p2 (add p1 s)))) /\
  (forall s0 x, In x (packs_ (remove name s0))
                <-> In x (packs_ s0) /\ ~ (Pack.getName x = name /\ Pack.getSource x = "")) /\
  (forall s0 x, In x (packs_ s0) -> Pack.getSource x <> "" ->
                In x (packs_ (remove name s0))).
Proof.
  intros H1 H2 H3.
  assert (Hgen : forall s0 x, In x (packs_ (remove name s0))
            <-> In x (packs_ s0) /\ ~ (Pack.getName x = name /\ Pack.getSource x = "")).
  { intros s0 x. unfold remove. rewrite In_remove2. unfold ident.
    split; intros [Ha Hb]; (split; [exact Ha|]).
    - intros [Hn Hs]. apply Hb. rewrite Hn, Hs. reflexivity.
    - intros [= Hn Hs]. apply Hb. auto. }
  split; [|split; [|split]].
  - rewrite Hgen. unfold ident in H1. injection H1 as Hn Hs. tauto.
  - rewrite Hgen. split; [apply In_add; left; reflexivity | tauto].
  - exact Hgen.
  - intros s0 x Hx Hsrc. apply Hgen. tauto.
Qed.
End IdentityFacts.

Lemma add_replaces_same_identity_witness :
  length (Schedule.packs_
            (Schedule.add linux_pack
               (Schedule.run [Schedule.Add linux_pack; Schedule.Add custom_pack]
                  empty_schedule)))
  = length (Schedule.packs_
              (Schedule.run [Schedule.Add linux_pack; Schedule.Add custom_pack]
                 empty_schedule)).
Proof.
  apply (add_replaces_same_identity empty_schedule
           [Schedule.Add linux_pack; Schedule.Add custom_pack] linux_pack linux_pack).
  - constructor.
  - simpl. left. reflexivity.
  - reflexivity.
Defined.

Lemma remove_by_name_only_default_source_witness :
  ~ In linux_pack
      (Schedule.packs_
         (Schedule.remove "foo"
            (Schedule.add custom_pack (Schedule.add linux_pack empty_schedule)))) /\
  In custom_pack
      (Schedule.packs_
         (Schedule.remove "foo"
            (Schedule.add custom_pack (Schedule.add linux_pack empty_schedule)))).
Proof.
  pose proof (remove_by_name_only_default_source empty_schedule "foo"
                linux_pack custom_pack) as H.
  destruct H as (Ha & Hb & _); [reflexivity | reflexivity | discriminate |].
  split; [exact Ha | exact Hb].
Defined.

(** ** The dirty-state ledger *)

Section LedgerFacts.
Import Config.

Lemma blacklist_recordQueryStart q st :
  Database.blacklist (recordQueryStart q st).2 = Database.blacklist st.2.
Proof. destruct st as [c db]. reflexivity. Qed.

Lemma blacklist_ledger_step st o :
  Database.blacklist (ledger_step st o).2 = Database.blacklist st.2.
Proof. destruct st as [c db], o; reflexivity. Qed.

Lemma blacklist_ledger_run ops st :
  Database.blacklist (ledger_run ops st).2 = Database.blacklist st.2.
Proof.
  revert st. induction ops as [|o ops IH]; intros st; simpl; [reflexivity|].
  unfold ledger_run in IH. rewrite IH. apply blacklist_ledger_step.
Qed.

Lemma marked_recordQueryStart q st : marked q (recordQueryStart q st).
Proof.
  destruct st as [c db]. split; simpl.
  - apply elem_of_union_l, elem_of_singleton. reflexivity.
  - rewrite lookup_insert_eq. reflexivity.
Qed.

Lemma marked_ledger_step q st o :
  completes q o = false -> marked q st -> marked q (ledger_step st o).
Proof.
  destruct st as [c db]. intros Hc [Hd Hp]. simpl in Hd, Hp.
  destruct o as [n|n d s r0 r1]; simpl in *.
  - split; simpl; [apply elem_of_union_r, Hd|].
    destruct (decide (n = q)) as [->|Hne].
    + rewrite lookup_insert_eq. reflexivity.
    + rewrite lookup_insert_ne by exact Hne. exact Hp.
  - apply bool_decide_eq_false in Hc.
    split; simpl.
    { apply elem_of_difference. split; [exact Hd|].
      rewrite elem_of_singleton. congruence. }
    rewrite lookup_insert_ne by exact Hc. exact Hp.
Qed.

Lemma marked_ledger_run q ops st :
  forallb (fun o => negb (completes q o)) ops = true ->
  marked q st -> marked q (ledger_run ops st).
Proof.
  revert st. induction ops as [|o ops IH]; intros st Hall Hm; simpl; [exact Hm|].
  simpl in Hall. apply andb_true_iff in Hall as [Ho Hall].
  apply negb_true_iff in Ho.
  apply IH; [exact Hall|]. apply marked_ledger_step; assumption.
Qed.

(** The constructor leaves the counter of a query that is not dirty as it
    is in the store. *)
Lemma create_blacklist_clean db q :
  q ∉ Database.dirty db ->
  Schedule.blacklist_ (Schedule.create db) !! q = Database.blacklist db !! q.
Proof.
  unfold Schedule.create.
  apply (set_fold_ind_L
           (fun s X => q ∉ X -> Schedule.blacklist_ s !! q = Database.blacklist db !! q)).
  - reflexivity.
  - intros x X s Hx IH Hq. simpl.
    apply not_elem_of_union in Hq as [Hqx HqX].
    rewrite elem_of_singleton in Hqx.
    rewrite lookup_insert_ne by congruence. apply IH, HqX.
Qed.

Lemma create_single db q :
  Database.dirty db = {[q]} ->
  Schedule.create db
  = Schedule.record_failed q (Schedule.mk [] "" (Database.blacklist db)).
Proof.
  intros H. unfold Schedule.create. rewrite H. apply set_fold_singleton.
Qed.

(** The constructor raises the counter of every dirty query by one, and
    its failed query is one of the dirty queries. *)
Lemma create_blacklist_dirty db q :
  q ∈ Database.dirty db ->
  Schedule.blacklist_ (Schedule.create db) !! q
  = Some (N.succ (default 0%N (Database.blacklist db !! q))).
Proof.
  unfold Schedule.create.
  apply (set_fold_ind_L
           (fun s X =>
              (q ∈ X -> Schedule.blacklist_ s !! q
                        = Some (N.succ (default 0%N (Database.blacklist db !! q))))
              /\ (q ∉ X -> Schedule.blacklist_ s !! q = Database.blacklist db !! q))).
  - split; [intros H; apply elem_of_empty in H; contradiction | reflexivity].
  - intros x X s Hx [IHin IHout]. simpl. split.
    + intros Hq. destruct (decide (x = q)) as [->|Hne].
      * rewrite lookup_insert_eq, (IHout Hx). reflexivity.
      * rewrite lookup_insert_ne by exact Hne. apply IHin.
        apply elem_of_union in Hq as [Hq|Hq]; [|exact Hq].
        apply elem_of_singleton in Hq. congruence.
    + intros Hq. apply not_elem_of_union in Hq as [Hqx HqX].
      rewrite elem_of_singleton in Hqx.
      rewrite lookup_insert_ne by congruence. apply IHout, HqX.
Qed.

Lemma create_failed_dirty db q :
  q ∈ Database.dirty db ->
  Schedule.failed_query_ (Schedule.create db) ∈ Database.dirty db.
Proof.
  unfold Schedule.create. revert q.
  apply (set_fold_ind_L
           (fun s X => forall q, q ∈ X -> Schedule.failed_query_ s ∈ X)).
  - intros q H. apply elem_of_empty in H. contradiction.
  - intros x X s Hx IH q Hq. simpl.
    apply elem_of_union_l, elem_of_singleton. reflexivity.
Qed.

(** C2: after [recordQueryStart q] and further ledger calls none of which
    is [recordQueryPerformance q], the query is dirty, and the schedule
    constructed at the next start has the counter of [q] exactly one above
    the stored one.  After any ledger calls, the failed query of the next
    start is one of the queries left dirty, if there is one, hence [q]
    when [q] is the only query left dirty, and the counters of the
    queries that are not dirty are the stored ones.  When
    [recordQueryPerformance q] is called before the restart, the dirty bit
    is cleared and the counter of [q] is the stored one. *)
Theorem dirty_query_recorded_on_restart
    (c : t) (db : Database.t) (q : string) (now : N) :
  (forall ops,
     forallb (fun o => negb (completes q o)) ops = true ->
     marked q (ledger_run (Start q :: ops) (c, db)) /\
     Schedule.blacklist_
       (schedule_ (restart (ledger_run (Start q :: ops) (c, db)) now)) !! q
     = Some (N.succ (default 0%N (Database.blacklist db !! q)))) /\
  (forall ops q0,
     q0 ∈ Database.dirty (ledger_run ops (c, db)).2 ->
     Schedule.failed_query_ (schedule_ (restart (ledger_run ops (c, db)) now))
     ∈ Database.dirty (ledger_run ops (c, db)).2) /\
  (forall ops,
     Database.dirty (ledger_run ops (c, db)).2 = {[q]} ->
     Schedule.failed_query_ (schedule_ (restart (ledger_run ops (c, db)) now)) = q) /\
  (forall ops q',
     q' ∉ Database.dirty (ledger_run ops (c, db)).2 ->
     Schedule.blacklist_ (schedule_ (restart (ledger_run ops (c, db)) now)) !! q'
     = Database.blacklist db !! q') /\
  (forall ops delay size r0 r1,
     (q ∉ Database.dirty
            (recordQueryPerformance q delay size r0 r1 (ledger_run ops (c, db))).2) /\
     (is_dirty <$> (performance_
                      (recordQueryPerformance q delay size r0 r1
                         (ledger_run ops (c, db))).1 !! q) = Some false) /\
     Schedule.blacklist_
       (schedule_ (restart (recordQueryPerformance q delay size r0 r1
                              (ledger_run ops (c, db))) now)) !! q
     = Database.blacklist db !! q).
Proof.
  assert (Hbl : forall ops, Database.blacklist (ledger_run ops (c, db)).2
                            = Database.blacklist db)
    by (intros ops; rewrite blacklist_ledger_run; reflexivity).
  split; [|split; [|split; [|split]]].
  - intros ops Hnone.
    assert (Hm : marked q (ledger_run (Start q :: ops) (c, db))).
    { change (ledger_run (Start q :: ops) (c, db))
        with (ledger_run ops (recordQueryStart q (c, db))).
      apply marked_ledger_run; [exact Hnone|]. apply marked_recordQueryStart. }
    split; [exact Hm|]. specialize (Hbl (Start q :: ops)).
    destruct (ledger_run (Start q :: ops) (c, db)) as [c1 db1].
    destruct Hm as [Hq _]. simpl in Hq, Hbl. unfold restart, create. simpl.
    rewrite (create_blacklist_dirty db1 q Hq), Hbl. reflexivity.
  - intros ops q0 Hq0. destruct (ledger_run ops (c, db)) as [c1 db1].
    unfold restart, create. simpl. apply (create_failed_dirty db1 q0 Hq0).
  - intros ops Honly. destruct (ledger_run ops (c, db)) as [c1 db1].
    simpl in Honly. unfold restart, create. simpl.
    rewrite (create_single db1 q Honly). reflexivity.
  - intros ops q' Hq'. specialize (Hbl ops).
    destruct (ledger_run ops (c, db)) as [c1 db1]. simpl in Hq', Hbl.
    unfold restart, create. simpl.
    rewrite (create_blacklist_clean db1 q' Hq'), Hbl. reflexivity.
  - intros ops delay size r0 r1. specialize (Hbl ops).
    destruct (ledger_run ops (c, db)) as [c1 db1]. simpl in Hbl. simpl.
    assert (Hclean : q ∉ Database.dirty db1 ∖ {[q]}).
    { rewrite elem_of_difference, elem_of_singleton. tauto. }
    split; [exact Hclean|]. split.
    + rewrite lookup_insert_eq. reflexivity.
    + unfold restart, create. simpl.
      rewrite create_blacklist_clean by exact Hclean. simpl. rewrite Hbl. reflexivity.
Qed.
End LedgerFacts.

Lemma dirty_query_recorded_on_restart_witness :
  Schedule.blacklist_
    (Config.schedule_
       (Config.restart
          (Config.ledger_run [Config.Start "q"; Config.Start "r"; Config.Perf "r" 3 10 ∅ ∅]
             (Config.create Database.empty 0, Database.empty)) 1)) !! "q"
  = Some (N.succ (default 0%N (Database.blacklist Database.empty !! "q"))).
Proof.
  destruct (dirty_query_recorded_on_restart (Config.create Database.empty 0)
              Database.empty "q" 1) as (Hstart & _).
  destruct (Hstart [Config.Start "r"; Config.Perf "r" 3 10 ∅ ∅] eq_refl)
    as (_ & Hcount).
  exact Hcount.
Defined.

(** With two queries left dirty, one of them has been started, has never
    completed and is dirty, and it is not the failed query of the next
    start. *)
Lemma second_dirty_query_is_not_the_failed_query :
  Config.marked "b"
    (Config.ledger_run [Config.Start "b"; Config.Start "a"]
       (Config.create Database.empty 0, Database.empty)) /\
  Schedule.failed_query_
    (Config.schedule_
       (Config.restart
          (Config.ledger_run [Config.Start "b"; Config.Start "a"]
             (Config.create Database.empty 0, Database.empty)) 1)) <> "b".
Proof.
  split.
  - apply (marked_ledger_run "b" [Config.Start "a"]); [reflexivity|].
    apply marked_recordQueryStart.
  - vm_compute. discriminate.
Qed.

(** ** Loading: retrieval failure and pack indirection *)

Section LoadFacts.
Import Config.
Variable parse : string -> option ptree.
Variable digest : string -> string.

Local Abbreviation load := (load parse digest).
Local Abbreviation update := (update parse digest).
Local Abbreviation discover_packs := (discover_packs parse).
Local Abbreviation discover_pack := (discover_pack parse).

(** C6: when [genConfig] of the active plugin returns a failure status,
    [load] returns that failure, makes no parser call, and leaves the
    engine as it was, in particular the schedule, the files, the
    performance ledger and the digests, whatever the plugin had put into
    the map. *)
Theorem failed_retrieval_changes_nothing (active : ConfigPlugin.t) (e : engine) :
  Status.ok (ConfigPlugin.genConfig active).1 = false ->
  Status.ok (status (load active e)) = false /\
  status (load active e) = (ConfigPlugin.genConfig active).1 /\
  after (load active e) = e /\
  schedule_ (config (after (load active e))) = schedule_ (config e) /\
  files_ (config (after (load active e))) = files_ (config e) /\
  performance_ (config (after (load active e))) = performance_ (config e) /\
  hash_ (config (after (load active e))) = hash_ (config e) /\
  calls (load active e) = [].
Proof.
  intros Hfail. unfold Config.load.
  destruct (ConfigPlugin.genConfig active) as [st srcs]. simpl in Hfail.
  rewrite Hfail. simpl. repeat split; auto.
Qed.

Lemma discover_packs_app active source l1 l2 c :
  discover_packs active source (l1 ++ l2) c
  = discover_packs active source l2 (discover_packs active source l1 c).
Proof. unfold Config.discover_packs. apply fold_left_app. Qed.

End LoadFacts.

Lemma failed_retrieval_changes_nothing_witness :
  Config.after (Config.load read tag unreachable fresh_engine) = fresh_engine.
Proof.
  apply (failed_retrieval_changes_nothing read tag unreachable fresh_engine).
  reflexivity.
Defined.

(** ** The order of iteration over a map *)

Section OrderFacts.
Context {A : Type}.
Implicit Types (l : list (string * A)) (m : gmap string A).

Lemma str_lt_trans a b c : str_lt a b -> str_lt b c -> str_lt a c.
Proof.
  unfold str_lt. intros H1 H2.
  apply OrderedTypeEx.String_as_OT.cmp_lt in H1, H2.
  apply OrderedTypeEx.String_as_OT.cmp_lt.
  eapply OrderedTypeEx.String_as_OT.lt_trans; eassumption.
Qed.

Lemma str_lt_irrefl a : ~ str_lt a a.
Proof.
  unfold str_lt. intros H.
  assert (He : String.compare a a = Eq)
    by (apply OrderedTypeEx.String_as_OT.cmp_eq; reflexivity).
  congruence.
Qed.


Lemma compare_Gt_lt a b : String.compare a b = Gt -> str_lt b a.
Proof.
  unfold str_lt. intros H. rewrite String.compare_antisym, H. reflexivity.
Qed.

Lemma ordered_insert_elem_1 k v l x :
  x ∈ ordered_insert k v l -> x = (k, v) \/ x ∈ l.
Proof.
  induction l as [|[k' v'] r IH]; simpl.
  - intros H. apply list_elem_of_singleton in H. left. exact H.
  - destruct (String.compare k k'); intros H; apply elem_of_cons in H as [H|H].
    + left. exact H.
    + right. apply elem_of_cons. right. exact H.
    + left. exact H.
    + right. exact H.
    + right. apply elem_of_cons. left. exact H.
    + destruct (IH H) as [H'|H']; [left; exact H'|].
      right. apply elem_of_cons. right. exact H'.
Qed.

Lemma ordered_insert_sorted k v l :
  StronglySorted entry_lt l -> StronglySorted entry_lt (ordered_insert k v l).
Proof.
  induction l as [|[k' v'] r IH]; simpl; intros Hs.
  - repeat constructor.
  - apply StronglySorted_inv in Hs as [Hr Hall].
    destruct (String.compare k k') eqn:Hc.
    + apply String.compare_eq_iff in Hc. subst k'.
      constructor; [exact Hr|]. exact Hall.
    + constructor; [constructor; assumption|].
      constructor; [exact Hc|].
      eapply Forall_impl; [exact Hall|].
      intros y Hy. unfold entry_lt in *. simpl in *.
      eapply str_lt_trans; [exact Hc | exact Hy].
    + constructor; [apply IH; exact Hr|].
      apply Forall_forall. intros y Hy.
      apply ordered_insert_elem_1 in Hy as [->|Hy].
      * apply compare_Gt_lt in Hc. exact Hc.
      * rewrite Forall_forall in Hall. apply Hall. exact Hy.
Qed.

Lemma ordered_insert_elem k v l x :
  StronglySorted entry_lt l ->
  x ∈ ordered_insert k v l <-> x = (k, v) \/ (x ∈ l /\ x.1 <> k).
Proof.
  induction l as [|[k' v'] r IH]; simpl; intros Hs.
  - rewrite list_elem_of_singleton. split; [auto|].
    intros [H|[H _]]; [exact H|]. apply elem_of_nil in H. contradiction.
  - apply StronglySorted_inv in Hs as [Hr Hall].
    rewrite Forall_forall in Hall.
    assert (Hlater : forall y, y ∈ r -> str_lt k' y.1) by (intros y Hy; exact (Hall y Hy)).
    destruct (String.compare k k') eqn:Hc.
    + apply String.compare_eq_iff in Hc. subst k'.
      rewrite !elem_of_cons. split.
      * intros [H|H]; [left; exact H|]. right.
        split; [right; exact H|]. intros He. apply Hlater in H.
        rewrite He in H. exact (str_lt_irrefl k H).
      * intros [H|[[H|H] Hne]]; [left; exact H | | right; exact H].
        subst x. simpl in Hne. congruence.
    + fold (str_lt k k') in Hc. rewrite !elem_of_cons. split.
      * intros [H|[H|H]]; [left; exact H | |].
        -- right. split; [left; exact H|]. subst x. simpl.
           intros He. subst k'. exact (str_lt_irrefl k Hc).
        -- right. split; [right; exact H|]. intros He.
           apply Hlater in H. rewrite He in H.
           exact (str_lt_irrefl k (str_lt_trans _ _ _ Hc H)).
      * intros [H|[H _]]; [left; exact H | right; exact H].
    + apply compare_Gt_lt in Hc. rewrite !elem_of_cons, (IH Hr). split.
      * intros [H|[H|[H Hne]]].
        -- right. split; [left; exact H|]. subst x. simpl.
           intros He. subst k'. exact (str_lt_irrefl k Hc).
        -- left. exact H.
        -- right. split; [right; exact H | exact Hne].
      * intros [H|[[H|H] Hne]].
        -- right. left. exact H.
        -- left. exact H.
        -- right. right. split; assumption.
Qed.

Lemma in_order_sorted m : StronglySorted entry_lt (in_order m).
Proof.
  unfold in_order. induction (map_to_list m) as [|[k v] r IH]; simpl.
  - constructor.
  - apply ordered_insert_sorted, IH.
Qed.

Lemma in_order_elem m k v : (k, v) ∈ in_order m <-> m !! k = Some v.
Proof.
  rewrite <- elem_of_map_to_list. unfold in_order.
  pose proof (NoDup_fst_map_to_list m) as Hnd.
  induction (map_to_list m) as [|[k' v'] r IH]; simpl in *.
  - reflexivity.
  - apply NoDup_cons in Hnd as [Hnin Hnd].
    assert (Hs : StronglySorted entry_lt
                   (foldr (fun kv acc => ordered_insert kv.1 kv.2 acc) [] r)).
    { clear. induction r as [|[a b] r IHr]; simpl; [constructor|].
      apply ordered_insert_sorted, IHr. }
    rewrite (ordered_insert_elem _ _ _ _ Hs), (IH Hnd), elem_of_cons. simpl.
    split.
    + intros [H|[H _]]; [left; exact H | right; exact H].
    + intros [H|H]; [left; exact H|]. right. split; [exact H|].
      intros ->. apply Hnin. apply list_elem_of_fmap. exists (k', v). auto.
Qed.

Lemma entry_lt_trans : Transitive (@entry_lt A).
Proof. intros x y z. unfold entry_lt. apply str_lt_trans. Qed.




(** The keys are visited by increasing lexical order, each once. *)
Lemma in_order_keys_sorted m : StronglySorted str_lt (in_order m).*1.
Proof.
  pose proof (in_order_sorted m) as H.
  induction H as [|x l Hs IH Hall]; simpl; [constructor|].
  constructor; [exact IH|].
  apply Forall_fmap. exact Hall.
Qed.
End OrderFacts.

Lemma in_order_keys_NoDup {A} (m : gmap string A) : NoDup (in_order m).*1.
Proof.
  pose proof (in_order_keys_sorted m) as H.
  induction H as [|x l Hs IH Hall]; [constructor|].
  apply NoDup_cons. split; [|exact IH].
  intros Hin. rewrite Forall_forall in Hall.
  exact (str_lt_irrefl _ (Hall x Hin)).
Qed.


(** ** The merge of one key across sources *)

Section MergeFacts.

Lemma merge_tree_obj fa fb :
  merge_tree (PObj fa) (PObj fb)
  = PObj (merge_fields fa fb ++ List.filter (fun kv => negb (has_key kv.1 fa)) fb).
Proof.
  simpl. f_equal. f_equal. unfold merge_fields.
  induction fa as [|[k va] r IH]; simpl; [reflexivity|].
  f_equal. exact IH.
Qed.

Lemma assoc_app {A} k (l1 l2 : list (string * A)) :
  assoc k (l1 ++ l2) = match assoc k l1 with Some v => Some v | None => assoc k l2 end.
Proof.
  induction l1 as [|[k' v] r IH]; simpl; [reflexivity|].
  destruct (String.eqb k k'); [reflexivity | exact IH].
Qed.

Lemma assoc_merge_fields k fa fb :
  assoc k (merge_fields fa fb)
  = (fun va => match assoc k fb with Some vb => merge_tree va vb | None => va end)
      <$> assoc k fa.
Proof.
  unfold merge_fields. induction fa as [|[k' v] r IH]; simpl; [reflexivity|].
  destruct (String.eqb k k') eqn:He; [|exact IH].
  apply String.eqb_eq in He. subst k'. reflexivity.
Qed.

Lemma assoc_filter_absent k (fa fb : list (string * ptree)) :
  assoc k fa = None ->
  assoc k (List.filter (fun kv => negb (has_key kv.1 fa)) fb) = assoc k fb.
Proof.
  intros Hk. induction fb as [|[k' v] r IH]; simpl; [reflexivity|].
  destruct (String.eqb k k') eqn:He.
  - apply String.eqb_eq in He. subst k'.
    unfold has_key. rewrite Hk. simpl. rewrite String.eqb_refl. reflexivity.
  - destruct (negb (has_key k' fa)); simpl; rewrite ?He; exact IH.
Qed.

(** Key by key: a member of one side only is kept, a member of both sides
    is merged recursively. *)
Lemma merge_tree_member k fa fb :
  get_path [k] (merge_tree (PObj fa) (PObj fb))
  = match assoc k fa, assoc k fb with
    | Some va, Some vb => Some (merge_tree va vb)
    | Some va, None => Some va
    | None, o => o
    end.
Proof.
  rewrite merge_tree_obj. simpl. rewrite assoc_app, assoc_merge_fields.
  destruct (assoc k fa) as [va|] eqn:Ha; simpl.
  - destruct (assoc k fb); reflexivity.
  - rewrite (assoc_filter_absent k fa fb Ha). destruct (assoc k fb); reflexivity.
Qed.

Lemma get_path_cons k r t :
  get_path (k :: r) t = get_path [k] t ≫= get_path r.
Proof.
  simpl. destruct t; try reflexivity.
  destruct (assoc k fields); reflexivity.
Qed.

(** The later source wins on a leaf it defines. *)
Lemma later_wins p : forall a b v,
  get_path p b = Some v -> is_leaf v = true ->
  get_path p (merge_tree a b) = Some v.
Proof.
  induction p as [|k r IH]; intros a b v Hb Hleaf.
  - simpl in *. injection Hb as ->.
    destruct a, v; simpl in *; try reflexivity; discriminate.
  - destruct b as [| | | | |fb]; try discriminate.
    destruct a as [| | | | |fa]; try exact Hb.
    rewrite get_path_cons, merge_tree_member.
    simpl in Hb. destruct (assoc k fb) as [tb|]; [|discriminate].
    destruct (assoc k fa) as [ta|]; simpl; [|exact Hb].
    apply IH; assumption.
Qed.

(** A later source that leaves the path alone keeps what is there. *)
Lemma untouched_keeps p : forall a b v,
  untouched p b = true -> get_path p a = Some v ->
  get_path p (merge_tree a b) = Some v.
Proof.
  induction p as [|k r IH]; intros a b v Hu Ha; [discriminate|].
  destruct b as [| | | | |fb]; try discriminate.
  destruct a as [| | | | |fa]; try discriminate.
  rewrite get_path_cons, merge_tree_member.
  simpl in Hu, Ha. destruct (assoc k fa) as [ta|]; [|discriminate].
  destruct (assoc k fb) as [tb|]; simpl; [|exact Ha].
  apply IH; assumption.
Qed.

Lemma untouched_fold p later : forall t v,
  Forall (fun b => untouched p b = true) later -> get_path p t = Some v ->
  get_path p (fold_left merge_tree later t) = Some v.
Proof.
  induction later as [|b later IH]; intros t v Hall Ht; simpl; [exact Ht|].
  apply Forall_cons in Hall as [Hb Hall].
  apply IH; [exact Hall|]. apply untouched_keeps; assumption.
Qed.

Lemma merge_all_split earlier t later p v :
  get_path p t = Some v -> is_leaf v = true ->
  Forall (fun b => untouched p b = true) later ->
  exists r, merge_all (earlier ++ t :: later) = Some r /\ get_path p r = Some v.
Proof.
  intros Ht Hleaf Hall. destruct earlier as [|e es]; simpl.
  - eexists. split; [reflexivity|]. apply untouched_fold; assumption.
  - eexists. split; [reflexivity|].
    rewrite fold_left_app. simpl.
    apply untouched_fold; [exact Hall|]. apply later_wins; assumption.
Qed.

Lemma fold_arrays ts : forall l0,
  Forall (fun t => is_array t = true) ts ->
  fold_left merge_tree ts (PArr l0) = PArr (l0 ++ concat (array_items <$> ts)).
Proof.
  induction ts as [|t ts IH]; intros l0 Hall; simpl.
  - rewrite app_nil_r. reflexivity.
  - apply Forall_cons in Hall as [Ht Hall].
    destruct t as [| | | |lt|]; try discriminate. simpl.
    rewrite (IH _ Hall), app_assoc. reflexivity.
Qed.

Lemma merge_all_arrays ts :
  ts <> [] -> Forall (fun t => is_array t = true) ts ->
  merge_all ts = Some (PArr (concat (array_items <$> ts))).
Proof.
  destruct ts as [|t ts]; [congruence|]. intros _ Hall.
  apply Forall_cons in Hall as [Ht Hall].
  destruct t as [| | | |lt|]; try discriminate. simpl.
  rewrite (fold_arrays _ _ Hall). reflexivity.
Qed.

Lemma length_concat_sum {A} (ls : list (list A)) :
  length (concat ls) = sum_list (length <$> ls).
Proof.
  induction ls as [|l ls IH]; simpl; [reflexivity|].
  rewrite length_app, IH. reflexivity.
Qed.

End MergeFacts.

(** ** The digest of the configuration *)

Section StringFacts.








End StringFacts.

(** ** Schedule: how [add] and [remove] compose *)

Section CompositionFacts.
Import Schedule.

Lemma remove_if_app pred l1 l2 :
  remove_if pred (l1 ++ l2) = remove_if pred l1 ++ remove_if pred l2.
Proof.
  induction l1 as [|x l1 IH]; simpl; [reflexivity|].
  destruct (pred x); simpl; rewrite IH; reflexivity.
Qed.

Lemma remove_if_none pred l :
  (forall x, In x l -> pred x = false) -> remove_if pred l = l.
Proof.
  induction l as [|x l IH]; simpl; intros H; [reflexivity|].
  rewrite (H x) by (left; reflexivity). f_equal.
  apply IH. intros y Hy. apply H. right. exact Hy.
Qed.

Lemma remove_if_same_inv pred l :
  remove_if pred l = l -> forall x, In x l -> pred x = false.
Proof.
  induction l as [|y l IH]; simpl; intros Heq x Hx; [contradiction|].
  destruct (pred y) eqn:Hy.
  - exfalso. pose proof (remove_if_length pred l) as Hlen.
    rewrite Heq in Hlen. simpl in Hlen. lia.
  - injection Heq as Heq. destruct Hx as [<-|Hx]; [exact Hy|].
    apply IH; assumption.
Qed.

Lemma remove_if_idem pred l : remove_if pred (remove_if pred l) = remove_if pred l.
Proof.
  apply remove_if_none. intros x Hx. apply In_remove_if in Hx as [_ H]. exact H.
Qed.

Lemma remove_if_comm pred1 pred2 l :
  remove_if pred1 (remove_if pred2 l) = remove_if pred2 (remove_if pred1 l).
Proof.
  induction l as [|x l IH]; simpl; [reflexivity|].
  destruct (pred1 x) eqn:H1, (pred2 x) eqn:H2; simpl; rewrite ?H1, ?H2, IH;
    reflexivity.
Qed.

Lemma same_ident_ext p p' x :
  ident p' = ident p ->
  same_ident (Pack.getName p') (Pack.getSource p') x
  = same_ident (Pack.getName p) (Pack.getSource p) x.
Proof. unfold ident. intros [= -> ->]. reflexivity. Qed.

Lemma fresh_remove_if p l :
  (forall x, In x l -> ident x <> ident p) ->
  remove_if (same_ident (Pack.getName p) (Pack.getSource p)) l = l.
Proof.
  intros H. apply remove_if_none. intros x Hx.
  apply same_ident_false. apply (H x Hx).
Qed.

Lemma schedule_eta s : mk (packs_ s) (failed_query_ s) (blacklist_ s) = s.
Proof. destruct s. reflexivity. Qed.

Lemma remove2_fresh s n src :
  (forall p, In p (packs_ s) -> ident p <> (n, src)) -> remove2 n src s = s.
Proof.
  intros H. unfold remove2. rewrite remove_if_none.
  - apply schedule_eta.
  - intros x Hx. apply same_ident_false, H, Hx.
Qed.

(** X1: [remove] leaves the whole schedule as it is exactly when no stored
    pack has that name and source; so removing from a schedule without
    packs, or removing an identity that is absent, changes nothing. *)
Theorem remove_absent_is_noop (s : t) (n src : string) :
  remove2 n src s = s <->
  (forall p, In p (packs_ s) -> ident p <> (n, src)).
Proof.
  split.
  - intros Heq p Hp. apply same_ident_false.
    apply (remove_if_same_inv (same_ident n src) (packs_ s)); [|exact Hp].
    rewrite <- packs_remove2, Heq. reflexivity.
  - apply remove2_fresh.
Qed.

(** X2: removing the same identity twice is removing it once, and two
    removals give the same schedule in either order. *)
Theorem removes_compose (s : t) (n src n' src' : string) :
  remove2 n src (remove2 n src s) = remove2 n src s /\
  remove2 n src (remove2 n' src' s) = remove2 n' src' (remove2 n src s).
Proof.
  unfold remove2. simpl. split; f_equal.
  - apply remove_if_idem.
  - apply remove_if_comm.
Qed.

(** X3: [add] does not replace in place.  In a schedule whose identities
    are unique, adding a pack whose identity is that of a stored pack
    erases the stored one from its position and puts the new one last; the
    other packs keep their order. *)
Theorem add_existing_moves_to_end (s : t) (p p0 : Pack.t) (l1 l2 : list Pack.t) :
  NoDup (idents s) ->
  packs_ s = l1 ++ p0 :: l2 ->
  ident p0 = ident p ->
  packs_ (add p s) = l1 ++ l2 ++ [p].
Proof.
  intros Hnd Hs Hid. unfold idents in Hnd. rewrite Hs in Hnd.
  rewrite map_app in Hnd. simpl in Hnd.
  apply NoDup_app in Hnd as (_ & H1 & H2).
  apply NoDup_cons in H2 as [H2 _].
  rewrite packs_add, Hs, remove_if_app. simpl.
  assert (Hp0 : same_ident (Pack.getName p) (Pack.getSource p) p0 = true)
    by (apply same_ident_true; exact Hid).
  rewrite Hp0, !fresh_remove_if, <- app_assoc; [reflexivity| |].
  - intros x Hx He. apply H2. rewrite Hid, <- He.
    apply list_elem_of_In, in_map, Hx.
  - intros x Hx He. apply (H1 (ident x)).
    + apply list_elem_of_In, in_map, Hx.
    + rewrite He, <- Hid. left.
Qed.

(** X4: adding a pack whose identity is not stored appends it: the stored
    packs keep their places and the size grows by one. *)
Theorem add_fresh_appends (s : t) (p : Pack.t) :
  (forall x, In x (packs_ s) -> ident x <> ident p) ->
  packs_ (add p s) = packs_ s ++ [p] /\
  length (packs_ (add p s)) = S (length (packs_ s)).
Proof.
  intros H. rewrite packs_add, (fresh_remove_if p _ H), length_app. simpl.
  split; [reflexivity | lia].
Qed.

(** X5: the last [add] of an identity wins: adding a pack and then a pack
    of the same name and source gives the schedule that the second [add]
    alone gives; in particular [add] is idempotent. *)
Theorem later_add_overwrites (s : t) (p p' : Pack.t) :
  ident p' = ident p ->
  add p' (add p s) = add p' s /\ add p' (add p' s) = add p' s.
Proof.
  intros Hid.
  assert (Hgen : forall q q', ident q' = ident q -> add q' (add q s) = add q' s).
  { intros q q' Hq. unfold ident in Hq. injection Hq as Hn Hs.
    unfold add, remove2. simpl. rewrite Hn, Hs.
    rewrite remove_if_app, remove_if_idem. simpl.
    rewrite same_ident_self, app_nil_r. reflexivity. }
  split; apply Hgen; [exact Hid | reflexivity].
Qed.

(** X6: for every schedule, removing the identity of a pack just added
    gives what the removal gives without the [add]; and [add] followed by
    [remove] gives back the schedule exactly when the identity was not
    stored. *)
Theorem add_then_remove (s : t) (p : Pack.t) :
  remove2 (Pack.getName p) (Pack.getSource p) (add p s)
  = remove2 (Pack.getName p) (Pack.getSource p) s /\
  (remove2 (Pack.getName p) (Pack.getSource p) (add p s) = s <->
   forall x, In x (packs_ s) -> ident x <> ident p).
Proof.
  assert (Heq : remove2 (Pack.getName p) (Pack.getSource p) (add p s)
                = remove2 (Pack.getName p) (Pack.getSource p) s).
  { unfold remove2, add. simpl. f_equal.
    rewrite remove_if_app, remove_if_idem. simpl.
    rewrite same_ident_self. apply app_nil_r. }
  split; [exact Heq|]. rewrite Heq. split.
  - intros Hs x Hx. apply same_ident_false.
    apply (remove_if_same_inv (same_ident (Pack.getName p) (Pack.getSource p))
             (packs_ s)); [|exact Hx].
    rewrite <- packs_remove2, Hs. reflexivity.
  - apply remove2_fresh.
Qed.
End CompositionFacts.

(** ** Schedule: sequences of operations *)

Section RunFacts.
Import Schedule.

Lemma run_app ops1 ops2 s : run (ops1 ++ ops2) s = run ops2 (run ops1 s).
Proof. unfold run. apply fold_left_app. Qed.

Lemma failure_state_apply o s :
  failed_query_ (apply o s) = failed_query_ s /\ blacklist_ (apply o s) = blacklist_ s.
Proof. destruct o; split; reflexivity. Qed.

Lemma In_apply_keeps o s p :
  touches (ident p) o = false -> In p (packs_ s) -> In p (packs_ (apply o s)).
Proof.
  intros Ht Hin. destruct o as [q|n|n src]; simpl in *;
    apply bool_decide_eq_false in Ht.
  - apply In_add. right. split; [exact Hin | congruence].
  - apply In_remove2. split; [exact Hin | congruence].
  - apply In_remove2. split; [exact Hin | congruence].
Qed.

Lemma In_apply_from o s x :
  In x (packs_ (apply o s)) -> In x (packs_ s) \/ o = Add x.
Proof.
  destruct o as [q|n|n src]; simpl.
  - intros H. apply In_add in H as [->|[H _]]; [right; reflexivity | left; exact H].
  - intros H. apply In_remove2 in H as [H _]. left. exact H.
  - intros H. apply In_remove2 in H as [H _]. left. exact H.
Qed.

(** X7: two packs of different identities can be added in either order;
    the two results hold the same packs and differ only in which of the
    two comes last. *)
Theorem adds_commute_up_to_order (s : t) (p q : Pack.t) :
  ident p <> ident q ->
  packs_ (add p (add q s))
  = remove_if (same_ident (Pack.getName p) (Pack.getSource p))
      (remove_if (same_ident (Pack.getName q) (Pack.getSource q)) (packs_ s))
    ++ [q; p] /\
  packs_ (add q (add p s))
  = remove_if (same_ident (Pack.getName p) (Pack.getSource p))
      (remove_if (same_ident (Pack.getName q) (Pack.getSource q)) (packs_ s))
    ++ [p; q] /\
  Permutation (packs_ (add p (add q s))) (packs_ (add q (add p s))).
Proof.
  intros Hne.
  assert (Hq : same_ident (Pack.getName p) (Pack.getSource p) q = false)
    by (apply same_ident_false; intros He; apply Hne; symmetry; exact He).
  assert (Hp : same_ident (Pack.getName q) (Pack.getSource q) p = false)
    by (apply same_ident_false; exact Hne).
  assert (H1 : packs_ (add p (add q s))
               = remove_if (same_ident (Pack.getName p) (Pack.getSource p))
                   (remove_if (same_ident (Pack.getName q) (Pack.getSource q)) (packs_ s))
                 ++ [q; p]).
  { rewrite (packs_add p), (packs_add q), remove_if_app. simpl.
    rewrite Hq, <- app_assoc. reflexivity. }
  assert (H2 : packs_ (add q (add p s))
               = remove_if (same_ident (Pack.getName p) (Pack.getSource p))
                   (remove_if (same_ident (Pack.getName q) (Pack.getSource q)) (packs_ s))
                 ++ [p; q]).
  { rewrite (packs_add q), (packs_add p), remove_if_app. simpl.
    rewrite Hp, <- app_assoc, remove_if_comm. reflexivity. }
  split; [exact H1|]. split; [exact H2|].
  rewrite H1, H2. apply Permutation_app_head. apply perm_swap.
Qed.

(** X8: no sequence of [add] and [remove] changes the recorded failed query
    or the blacklist. *)
Theorem run_keeps_failure_state (ops : list op) (s : t) :
  failed_query_ (run ops s) = failed_query_ s /\
  blacklist_ (run ops s) = blacklist_ s.
Proof.
  revert s. induction ops as [|o ops IH]; intros s; [split; reflexivity|].
  change (run (o :: ops) s) with (run ops (apply o s)).
  destruct (IH (apply o s)) as [-> ->]. apply failure_state_apply.
Qed.

(** X9: a stored pack stays stored through every sequence of operations
    none of which adds or removes its identity. *)
Theorem stored_pack_persists (s : t) (ops : list op) (p : Pack.t) :
  In p (packs_ s) ->
  forallb (fun o => negb (touches (ident p) o)) ops = true ->
  In p (packs_ (run ops s)).
Proof.
  revert s. induction ops as [|o ops IH]; intros s Hin Hall; [exact Hin|].
  simpl in Hall. apply andb_true_iff in Hall as [Ho Hall].
  apply negb_true_iff in Ho.
  change (run (o :: ops) s) with (run ops (apply o s)).
  apply IH; [|exact Hall]. apply In_apply_keeps; assumption.
Qed.

(** X10: a sequence of operations never stores a pack out of nothing: a
    pack stored at the end was stored at the start or is the argument of
    one of the [add] operations. *)
Theorem stored_pack_provenance (s : t) (ops : list op) (x : Pack.t) :
  In x (packs_ (run ops s)) ->
  In x (packs_ s) \/ In (Add x) ops.
Proof.
  revert s. induction ops as [|o ops IH]; intros s Hin; [left; exact Hin|].
  change (run (o :: ops) s) with (run ops (apply o s)) in Hin.
  destruct (IH _ Hin) as [H|H].
  - destruct (In_apply_from o s x H) as [H' | ->].
    + left. exact H'.
    + right. left. reflexivity.
  - right. right. exact H.
Qed.
End RunFacts.

(** ** Schedule: the iterator, step by step *)

Section StepFacts.
Import Schedule.
Context {HostFacts : Type}.
Variable shouldPackExecute : HostFacts -> Pack.t -> bool.

Local Abbreviation Step := (Step shouldPackExecute).
Local Abbreviation satisfy_predicate := (satisfy_predicate shouldPackExecute).
Local Abbreviation begin := (begin shouldPackExecute).
Local Abbreviation increment := (increment shouldPackExecute).
Local Abbreviation advance := (advance shouldPackExecute).
Local Abbreviation pass := (pass shouldPackExecute).

Lemma satisfy_predicate_nil h l :
  satisfy_predicate h l = [] <-> forall p, In p l -> Step h p = false.
Proof.
  induction l as [|x l IH]; simpl.
  - split; [intros _ p [] | reflexivity].
  - destruct (Step h x) eqn:Hx.
    + split; [discriminate|]. intros H.
      rewrite (H x) in Hx by (left; reflexivity). discriminate.
    + rewrite IH. split.
      * intros H p [<-|Hp]; [exact Hx | apply H, Hp].
      * intros H p Hp. apply H. right. exact Hp.
Qed.

Lemma filter_nil_iff {A} (f : A -> bool) l :
  List.filter f l = [] <-> forall x, In x l -> f x = false.
Proof.
  induction l as [|x l IH]; simpl.
  - split; [intros _ y [] | reflexivity].
  - destruct (f x) eqn:Hx.
    + split; [discriminate|]. intros H.
      rewrite (H x) in Hx by (left; reflexivity). discriminate.
    + rewrite IH. split.
      * intros H y [<-|Hy]; [exact Hx | apply H, Hy].
      * intros H y Hy. apply H. right. exact Hy.
Qed.

(** A position reached by skipping: at the end, or on an accepted pack. *)
Lemma settled_head h (it : list Pack.t) :
  match it with [] => True | p :: _ => Step h p = true end ->
  head it = head (List.filter (Step h) it)
  /\ List.filter (Step h) (tl it) = tl (List.filter (Step h) it).
Proof.
  destruct it as [|p r]; simpl; [auto|]. intros ->. simpl. auto.
Qed.

Lemma advance_settled h k s :
  match advance h k s with [] => True | p :: _ => Step h p = true end.
Proof.
  destruct k as [|k]; simpl; apply satisfy_predicate_head.
Qed.

Lemma tl_drop {A} k : forall l : list A, tl (drop k l) = drop (S k) l.
Proof.
  induction k as [|k IH]; intros [|x l]; simpl; try reflexivity.
  apply IH.
Qed.

Lemma advance_filter h k s :
  List.filter (Step h) (advance h k s)
  = drop k (List.filter (Step h) (packs_ s)).
Proof.
  induction k as [|k IH].
  - simpl. unfold Schedule.begin. rewrite drop_0. apply satisfy_predicate_filter.
  - change (advance h (S k) s) with (increment h (advance h k s)).
    unfold Schedule.increment. rewrite satisfy_predicate_filter.
    destruct (settled_head h _ (advance_settled h k s)) as [_ ->].
    rewrite IH. apply tl_drop.
Qed.
Lemma head_drop {A} k : forall l : list A, head (drop k l) = nth_error l k.
Proof.
  induction k as [|k IH]; intros [|x l]; simpl; try reflexivity.
  apply IH.
Qed.

Lemma drop_nil_iff {A} k (l : list A) : drop k l = [] <-> length l <= k.
Proof.
  split.
  - intros H. apply (f_equal length) in H. rewrite length_drop in H.
    simpl in H. lia.
  - apply drop_ge.
Qed.

Lemma filter_comm {A} (f g : A -> bool) l :
  List.filter f (List.filter g l) = List.filter g (List.filter f l).
Proof.
  induction l as [|x l IH]; simpl; [reflexivity|].
  destruct (f x) eqn:Hf, (g x) eqn:Hg; simpl; rewrite ?Hf, ?Hg, IH; reflexivity.
Qed.

Lemma remove_if_of_filter pred (f : Pack.t -> bool) l :
  remove_if pred (List.filter f l) = List.filter f (remove_if pred l).
Proof. rewrite !remove_if_filter. apply filter_comm. Qed.

Lemma idents_filter (f : Pack.t -> bool) l :
  NoDup (List.map ident l) -> NoDup (List.map ident (List.filter f l)).
Proof.
  intros H.
  rewrite (List.filter_ext f (fun p => negb (negb (f p))))
    by (intros p; rewrite negb_involutive; reflexivity).
  rewrite <- (remove_if_filter (fun p => negb (f p))).
  apply idents_remove_if, H.
Qed.

(** X11: [begin()] equals [end()] exactly when the predicate rejects every
    stored pack, the schedule without packs included; the pass then ends
    at once and yields nothing. *)
Theorem begin_is_end_iff_nothing_applies (h : HostFacts) (s : t) :
  (begin h s = end_ s <->
   forall p, In p (packs_ s) -> shouldPackExecute h p = false) /\
  (pass h s = Some [] <->
   forall p, In p (packs_ s) -> shouldPackExecute h p = false).
Proof.
  split.
  - unfold Schedule.begin, end_. apply satisfy_predicate_nil.
  - rewrite (pass_filter shouldPackExecute h s).
    rewrite <- (filter_nil_iff (Schedule.Step shouldPackExecute h)).
    split; [intros [= H]; exact H | intros ->; reflexivity].
Qed.

(** X12: as long as the iterator is not moved past the end, after [k]
    increments from [begin()] it points to the [k]-th pack of the stored
    packs that the predicate accepts, and it equals [end()] exactly when
    [k] is the number of accepted packs. *)
Theorem kth_increment_reaches_kth_applicable (h : HostFacts) (s : t) (k : nat) :
  k <= length (List.filter (shouldPackExecute h) (packs_ s)) ->
  dereference (advance h k s)
  = nth_error (List.filter (shouldPackExecute h) (packs_ s)) k /\
  (at_end (advance h k s) = true <->
   k = length (List.filter (shouldPackExecute h) (packs_ s))).
Proof.
  intros Hk.
  pose proof (advance_settled h k s) as Hset.
  pose proof (advance_filter h k s) as Hf.
  destruct (settled_head h _ Hset) as [Hhead _].
  split.
  - unfold dereference. rewrite Hhead, Hf. apply head_drop.
  - assert (Hnil : advance h k s = []
                   <-> List.filter (Schedule.Step shouldPackExecute h) (advance h k s) = []).
    { destruct (advance h k s) as [|p r]; simpl; [tauto|].
      rewrite Hset. split; discriminate. }
    assert (Hend : at_end (advance h k s) = true <-> advance h k s = []).
    { destruct (advance h k s); simpl; split; congruence. }
    rewrite Hend, Hnil, Hf, drop_nil_iff.
    change (Schedule.Step shouldPackExecute h) with (shouldPackExecute h).
    lia.
Qed.

(** X13: removing an identity takes the packs of that identity, and no
    other, out of what a pass yields; the order of the others is kept. *)
Theorem pass_after_remove (h : HostFacts) (s : t) (n src : string) :
  pass h (remove2 n src s) = remove_if (same_ident n src) <$> pass h s.
Proof.
  rewrite !(pass_filter shouldPackExecute). simpl. f_equal.
  symmetry. apply remove_if_of_filter.
Qed.

(** X14: after [add], a pass yields what it yielded before without the
    packs of the added identity, followed by the added pack when the
    predicate accepts it. *)
Theorem pass_after_add (h : HostFacts) (s : t) (p : Pack.t) :
  pass h (add p s)
  = (fun l => remove_if (same_ident (Pack.getName p) (Pack.getSource p)) l
              ++ (if shouldPackExecute h p then [p] else []))
      <$> pass h s.
Proof.
  rewrite !(pass_filter shouldPackExecute). simpl. f_equal.
  rewrite List.filter_app, remove_if_of_filter. simpl.
  unfold Schedule.Step. destruct (shouldPackExecute h p); reflexivity.
Qed.

(** X15: a pass over a schedule whose identities are unique never yields
    two packs of the same name and source. *)
Theorem pass_identities_unique (h : HostFacts) (s : t) (l : list Pack.t) :
  NoDup (idents s) ->
  pass h s = Some l ->
  NoDup (List.map ident l).
Proof.
  intros Hnd Hl. rewrite (pass_filter shouldPackExecute) in Hl.
  injection Hl as <-. apply idents_filter, Hnd.
Qed.
End StepFacts.

Lemma three_packs_unique : NoDup (Schedule.idents three_packs).
Proof.
  unfold Schedule.idents. simpl.
  repeat (apply NoDup_cons; split;
          [rewrite ?elem_of_cons, elem_of_nil; intuition discriminate|]).
  apply NoDup_nil. exact I.
Defined.

Lemma add_existing_moves_to_end_witness :
  Schedule.packs_ (Schedule.add linux_pack_v2 three_packs)
  = [] ++ [darwin_pack; custom_pack] ++ [linux_pack_v2].
Proof.
  apply (add_existing_moves_to_end three_packs linux_pack_v2 linux_pack
           [] [darwin_pack; custom_pack]).
  - exact three_packs_unique.
  - reflexivity.
  - reflexivity.
Defined.

Lemma other_pack_fresh :
  forall x, In x (Schedule.packs_ three_packs) ->
            Schedule.ident x <> Schedule.ident other_pack.
Proof. intros x [<-|[<-|[<-|[]]]]; discriminate. Defined.

Lemma add_fresh_appends_witness :
  Schedule.packs_ (Schedule.add other_pack three_packs)
  = Schedule.packs_ three_packs ++ [other_pack]
  /\ length (Schedule.packs_ (Schedule.add other_pack three_packs)) = 4.
Proof.
  apply (add_fresh_appends three_packs other_pack). exact other_pack_fresh.
Defined.

Lemma later_add_overwrites_witness :
  Schedule.add linux_pack_v2 (Schedule.add linux_pack three_packs)
  = Schedule.add linux_pack_v2 three_packs.
Proof.
  apply (later_add_overwrites three_packs linux_pack linux_pack_v2). reflexivity.
Defined.

Lemma add_then_remove_witness :
  Schedule.remove2 "baz" "" (Schedule.add other_pack three_packs) = three_packs.
Proof.
  apply (add_then_remove three_packs other_pack). exact other_pack_fresh.
Defined.

Lemma adds_commute_up_to_order_witness :
  Permutation
    (Schedule.packs_ (Schedule.add linux_pack (Schedule.add darwin_pack empty_schedule)))
    (Schedule.packs_ (Schedule.add darwin_pack (Schedule.add linux_pack empty_schedule))).
Proof.
  apply (adds_commute_up_to_order empty_schedule linux_pack darwin_pack).
  discriminate.
Defined.

Lemma stored_pack_persists_witness :
  In linux_pack
     (Schedule.packs_
        (Schedule.run [Schedule.Add darwin_pack; Schedule.Remove2 "foo" "custom"]
           three_packs)).
Proof.
  apply (stored_pack_persists three_packs
           [Schedule.Add darwin_pack; Schedule.Remove2 "foo" "custom"] linux_pack).
  - simpl. left. reflexivity.
  - reflexivity.
Defined.

Lemma stored_pack_provenance_witness :
  In custom_pack (Schedule.packs_ empty_schedule)
  \/ In (Schedule.Add custom_pack) [Schedule.Add linux_pack; Schedule.Add custom_pack].
Proof.
  apply (stored_pack_provenance empty_schedule
           [Schedule.Add linux_pack; Schedule.Add custom_pack] custom_pack).
  simpl. right. left. reflexivity.
Defined.

Lemma kth_increment_reaches_kth_applicable_witness :
  Schedule.dereference (Schedule.advance platform_applies "linux" 1 three_packs)
  = nth_error (List.filter (platform_applies "linux") (Schedule.packs_ three_packs)) 1.
Proof.
  apply (kth_increment_reaches_kth_applicable platform_applies "linux" three_packs 1).
  simpl. lia.
Defined.

Lemma pass_identities_unique_witness :
  NoDup (List.map Schedule.ident [linux_pack; custom_pack]).
Proof.
  apply (pass_identities_unique platform_applies "linux" three_packs
           [linux_pack; custom_pack]).
  - exact three_packs_unique.
  - reflexivity.
Defined.

(** ** The sources of a cycle, one after the other *)

Section SourceFacts.
Import Config.
Variable parse : string -> option ptree.
Variable digest : string -> string.

Local Abbreviation updateSource := (updateSource parse digest).
Local Abbreviation apply_sources := (apply_sources parse digest).
Local Abbreviation update := (update parse digest).
Local Abbreviation load := (load parse digest).
Local Abbreviation applies := (applies parse).
Local Abbreviation value_of := (value_of parse).
Local Abbreviation providers := (providers parse).
Local Abbreviation discover_packs := (discover_packs parse).
Local Abbreviation discover_pack := (discover_pack parse).
Local Abbreviation resolve_pack := (resolve_pack parse).
Local Abbreviation run_cycle := (run_cycle parse digest).
Local Abbreviation run_cycles := (run_cycles parse digest).
Local Abbreviation final := (final parse digest).

Lemma hash_discover_packs active source entries c :
  hash_ (discover_packs active source entries c) = hash_ c.
Proof.
  unfold Config.discover_packs. revert c.
  induction entries as [|x r IH]; intros c; simpl; [reflexivity|].
  rewrite IH. unfold Config.discover_pack.
  destruct (Config.resolve_pack parse active x.1 x.2); reflexivity.
Qed.

Lemma fold_addFile_frame l : forall c,
  hash_ (fold_left (fun c cp => addFile cp.1 cp.2 c) l c) = hash_ c
  /\ schedule_ (fold_left (fun c cp => addFile cp.1 cp.2 c) l c) = schedule_ c.
Proof.
  induction l as [|x l IH]; intros c; simpl; [split; reflexivity|].
  destruct (IH (addFile x.1 x.2 c)) as [-> ->]. split; reflexivity.
Qed.

Lemma hash_collect_files fs c : hash_ (collect_files fs c) = hash_ c.
Proof. unfold collect_files. rewrite (proj1 (fold_addFile_frame _ _)). reflexivity. Qed.


(** The two cases of [updateSource]. *)
Lemma updateSource_applied active name json pr fields :
  parse json = Some (PObj fields) ->
  updateSource active name json pr
  = (Status.OK,
     mkProgress
       (collect_files (<[name := file_entries fields]> (p_files pr))
          (discover_packs active name (pack_entries fields)
             (supersede_packs name (hashSource digest name json (p_config pr)))))
       (<[name := file_entries fields]> (p_files pr))
       (group name fields (p_grouped pr))
       (S (p_applied pr))).
Proof. intros H. unfold Config.updateSource. rewrite H. reflexivity. Qed.

Lemma updateSource_skipped active name json pr :
  applies json = false ->
  updateSource active name json pr
  = (Status.mk 1 "Error parsing the config JSON", pr).
Proof.
  unfold Config.applies, Config.updateSource.
  destruct (parse json) as [[| | | | |fields]|]; try reflexivity. discriminate.
Qed.

Lemma applies_fields json :
  applies json = true -> exists fields, parse json = Some (PObj fields).
Proof.
  unfold Config.applies.
  destruct (parse json) as [[| | | | |fields]|]; try discriminate. eauto.
Qed.

Lemma hash_updateSource active name json pr :
  hash_ (p_config (updateSource active name json pr).2)
  = if applies json then <[name := digest json]> (hash_ (p_config pr))
    else hash_ (p_config pr).
Proof.
  destruct (applies json) eqn:Ha.
  - destruct (applies_fields json Ha) as [fields Hp].
    rewrite (updateSource_applied _ _ _ _ _ Hp). simpl.
    rewrite hash_collect_files, hash_discover_packs. reflexivity.
  - rewrite (updateSource_skipped _ _ _ _ Ha). reflexivity.
Qed.

Lemma applied_updateSource active name json pr :
  p_applied (updateSource active name json pr).2
  = if applies json then S (p_applied pr) else p_applied pr.
Proof.
  destruct (applies json) eqn:Ha.
  - destruct (applies_fields json Ha) as [fields Hp].
    rewrite (updateSource_applied _ _ _ _ _ Hp). reflexivity.
  - rewrite (updateSource_skipped _ _ _ _ Ha). reflexivity.
Qed.

(** What [group] leaves under a key. *)
Lemma group_reserved source fields g k :
  reserved k = true -> group source fields g !! k = g !! k.
Proof.
  intros Hk. unfold group.
  induction fields as [|[k' v] r IH]; simpl; [reflexivity|].
  destruct (reserved k') eqn:Hk'; [exact IH|].
  rewrite lookup_insert_ne; [exact IH|]. intros ->. congruence.
Qed.

Lemma group_lookup source fields g k :
  reserved k = false ->
  default ∅ (group source fields g !! k)
  = match assoc k fields with
    | Some v => <[source := v]> (default ∅ (g !! k))
    | None => default ∅ (g !! k)
    end.
Proof.
  intros Hk. unfold group.
  induction fields as [|[k' v] r IH]; simpl; [reflexivity|].
  destruct (String.eqb k k') eqn:He.
  - apply String.eqb_eq in He. subst k'. rewrite Hk.
    rewrite lookup_insert_eq. simpl. rewrite IH.
    destruct (assoc k r); [apply insert_insert_eq | reflexivity].
  - apply String.eqb_neq in He.
    destruct (reserved k'); [exact IH|].
    rewrite lookup_insert_ne by congruence. exact IH.
Qed.

Lemma grouped_updateSource active name json pr k :
  default ∅ (p_grouped (updateSource active name json pr).2 !! k)
  = match value_of k json with
    | Some v => <[name := v]> (default ∅ (p_grouped pr !! k))
    | None => default ∅ (p_grouped pr !! k)
    end.
Proof.
  unfold Config.value_of, Config.updateSource.
  destruct (parse json) as [[| | | | |fields]|]; try reflexivity.
  simpl. destruct (reserved k) eqn:Hk.
  - rewrite group_reserved by exact Hk. reflexivity.
  - apply group_lookup, Hk.
Qed.

Lemma grouped_reserved_updateSource active name json pr k :
  reserved k = true ->
  p_grouped (updateSource active name json pr).2 !! k = p_grouped pr !! k.
Proof.
  intros Hk. unfold Config.updateSource.
  destruct (parse json) as [[| | | | |fields]|]; try reflexivity.
  simpl. apply group_reserved, Hk.
Qed.
(** The sources of a list applied in turn. *)
Lemma hash_applied_out active l : forall pr k,
  k ∉ l.*1 ->
  hash_ (p_config (fold_left (fun pr kv => (updateSource active kv.1 kv.2 pr).2) l pr)) !! k
  = hash_ (p_config pr) !! k.
Proof.
  induction l as [|[k' c] l IH]; intros pr k Hk; simpl; [reflexivity|].
  rewrite fmap_cons in Hk. apply not_elem_of_cons in Hk as [Hne Hk].
  rewrite (IH _ _ Hk), hash_updateSource. simpl in Hne.
  destruct (applies c); [|reflexivity].
  apply lookup_insert_ne. congruence.
Qed.

Lemma hash_applied_in active l : forall pr k c,
  NoDup l.*1 -> (k, c) ∈ l ->
  hash_ (p_config (fold_left (fun pr kv => (updateSource active kv.1 kv.2 pr).2) l pr)) !! k
  = if applies c then Some (digest c) else hash_ (p_config pr) !! k.
Proof.
  induction l as [|[k' c'] l IH]; intros pr k c Hnd Hin.
  - apply elem_of_nil in Hin. contradiction.
  - rewrite fmap_cons in Hnd. apply NoDup_cons in Hnd as [Hnin Hnd]. simpl.
    apply elem_of_cons in Hin as [[= -> ->]|Hin].
    + rewrite (hash_applied_out _ _ _ _ Hnin), hash_updateSource.
      destruct (applies c'); [apply lookup_insert_eq | reflexivity].
    + rewrite (IH _ _ _ Hnd Hin), hash_updateSource.
      destruct (applies c); [reflexivity|].
      destruct (applies c'); [|reflexivity].
      apply lookup_insert_ne. intros ->. apply Hnin.
      apply list_elem_of_fmap. exists (k, c). auto.
Qed.

Lemma grouped_applied_out active l key : forall pr s,
  s ∉ l.*1 ->
  default ∅ (p_grouped (fold_left (fun pr kv => (updateSource active kv.1 kv.2 pr).2) l pr)
               !! key) !! s
  = default ∅ (p_grouped pr !! key) !! s.
Proof.
  induction l as [|[s' c] l IH]; intros pr s Hs; simpl; [reflexivity|].
  rewrite fmap_cons in Hs. apply not_elem_of_cons in Hs as [Hne Hs].
  rewrite (IH _ _ Hs), grouped_updateSource. simpl in Hne.
  destruct (value_of key c); [|reflexivity].
  apply lookup_insert_ne. congruence.
Qed.

Lemma grouped_applied_in active l key : forall pr s c,
  NoDup l.*1 -> (s, c) ∈ l ->
  default ∅ (p_grouped (fold_left (fun pr kv => (updateSource active kv.1 kv.2 pr).2) l pr)
               !! key) !! s
  = match value_of key c with
    | Some v => Some v
    | None => default ∅ (p_grouped pr !! key) !! s
    end.
Proof.
  induction l as [|[s' c'] l IH]; intros pr s c Hnd Hin.
  - apply elem_of_nil in Hin. contradiction.
  - rewrite fmap_cons in Hnd. apply NoDup_cons in Hnd as [Hnin Hnd]. simpl.
    apply elem_of_cons in Hin as [[= -> ->]|Hin].
    + rewrite (grouped_applied_out _ _ _ _ _ Hnin), grouped_updateSource.
      destruct (value_of key c'); [apply lookup_insert_eq | reflexivity].
    + rewrite (IH _ _ _ Hnd Hin), grouped_updateSource.
      destruct (value_of key c); [reflexivity|].
      destruct (value_of key c'); [|reflexivity].
      apply lookup_insert_ne. intros ->. apply Hnin.
      apply list_elem_of_fmap. exists (s, c). auto.
Qed.

Lemma grouped_applied_reserved active l key : forall pr,
  reserved key = true ->
  p_grouped (fold_left (fun pr kv => (updateSource active kv.1 kv.2 pr).2) l pr) !! key
  = p_grouped pr !! key.
Proof.
  induction l as [|[s c] l IH]; intros pr Hk; simpl; [reflexivity|].
  rewrite (IH _ Hk). apply grouped_reserved_updateSource, Hk.
Qed.

(** The count of applied sources never decreases; it stays put exactly
    when no source of the list applies, and then nothing has changed. *)
Lemma applied_count active l : forall pr,
  p_applied pr <= p_applied (fold_left (fun pr kv => (updateSource active kv.1 kv.2 pr).2) l pr)
  /\ (p_applied (fold_left (fun pr kv => (updateSource active kv.1 kv.2 pr).2) l pr)
      = p_applied pr ->
      fold_left (fun pr kv => (updateSource active kv.1 kv.2 pr).2) l pr = pr
      /\ forall kv, kv ∈ l -> applies kv.2 = false)
  /\ ((forall kv, kv ∈ l -> applies kv.2 = false) ->
      fold_left (fun pr kv => (updateSource active kv.1 kv.2 pr).2) l pr = pr).
Proof.
  induction l as [|[s c] l IH]; intros pr; simpl.
  - split; [lia|]. split; [intros _; split; [reflexivity|]|reflexivity].
    intros kv H. apply elem_of_nil in H. contradiction.
  - destruct (IH (updateSource active s c pr).2) as (Hle & Heq & Hnone).
    pose proof (applied_updateSource active s c pr) as Hstep.
    destruct (applies c) eqn:Hc.
    + split; [lia|]. split; [intros H; lia|].
      intros H. specialize (H (s, c) (list_elem_of_here _ _)). simpl in H. congruence.
    + rewrite (updateSource_skipped _ _ _ _ Hc) in *. simpl in *.
      split; [exact Hle|]. split.
      * intros H. destruct (Heq H) as [Hf Hall]. split; [exact Hf|].
        intros kv Hkv. apply elem_of_cons in Hkv as [->|Hkv]; [exact Hc | apply Hall, Hkv].
      * intros H. apply Hnone. intros kv Hkv. apply H. right. exact Hkv.
Qed.

Lemma classic_applies (l : list (string * string)) :
  (forall kv, kv ∈ l -> applies kv.2 = false)
  \/ (exists kv, kv ∈ l /\ applies kv.2 = true).
Proof.
  induction l as [|x l [IH|(kv & Hkv & Hc)]].
  - left. intros kv H. apply elem_of_nil in H. contradiction.
  - destruct (applies x.2) eqn:Hx.
    + right. exists x. split; [left | exact Hx].
    + left. intros kv Hkv. apply elem_of_cons in Hkv as [->|Hkv]; [exact Hx | apply IH, Hkv].
  - right. exists kv. split; [right; exact Hkv | exact Hc].
Qed.

(** *** The cycle *)

(** A cycle of [update] fails and changes nothing when no source applies;
    otherwise it succeeds, dispatches what the sources grouped, and its
    configuration is the one the sources left, made valid. *)
Lemma update_cases active srcs e :
  (p_applied (apply_sources active srcs e) = 0
   /\ update active srcs e
      = mkResult (Status.mk 1 "No config source could be parsed") e ∅ []
   /\ apply_sources active srcs e
      = mkProgress (config e) (file_sources e) ∅ 0
   /\ forall k c, srcs !! k = Some c -> applies c = false) \/
  (p_applied (apply_sources active srcs e) <> 0
   /\ status (update active srcs e) = Status.OK
   /\ config (after (update active srcs e))
      = set_valid (p_config (apply_sources active srcs e)) true
   /\ file_sources (after (update active srcs e)) = p_files (apply_sources active srcs e)
   /\ merged (update active srcs e)
      = omap merge_sources (p_grouped (apply_sources active srcs e))
   /\ dispatch (merged (update active srcs e)) (parsers e) (disabled e)
      = (parsers (after (update active srcs e)),
         disabled (after (update active srcs e)),
         calls (update active srcs e))).
Proof.
  unfold Config.update.
  destruct (Nat.eqb (p_applied (apply_sources active srcs e)) 0) eqn:Hz.
  - left. apply Nat.eqb_eq in Hz. split; [exact Hz|]. split; [reflexivity|].
    unfold Config.apply_sources in *.
    destruct (applied_count active (in_order srcs)
                (mkProgress (config e) (file_sources e) ∅ 0)) as (_ & Heq & _).
    destruct (Heq Hz) as [Hf Hall]. split; [exact Hf|].
    intros k c Hk. apply (Hall (k, c)). apply in_order_elem, Hk.
  - right. apply Nat.eqb_neq in Hz. split; [exact Hz|].
    destruct (dispatch (omap merge_sources (p_grouped (apply_sources active srcs e)))
                (parsers e) (disabled e)) as [[ps dis] log] eqn:Hd.
    simpl. rewrite Hd. repeat split; reflexivity.
Qed.

Lemma update_ok_iff active srcs e :
  Status.ok (status (update active srcs e)) = true
  <-> exists k c, srcs !! k = Some c /\ applies c = true.
Proof.
  destruct (update_cases active srcs e) as [(Hz & Hu & _ & Hnone)|(Hnz & Hst & _)].
  - rewrite Hu. simpl. split; [discriminate|].
    intros (k & c & Hk & Hc). rewrite (Hnone k c Hk) in Hc. discriminate.
  - rewrite Hst. split; [intros _|reflexivity].
    unfold Config.apply_sources in Hnz.
    destruct (applied_count active (in_order srcs)
                (mkProgress (config e) (file_sources e) ∅ 0)) as (_ & _ & Hnone).
    destruct (classic_applies (in_order srcs)) as [Hall|(kv & Hkv & Hc)].
    + rewrite (Hnone Hall) in Hnz. simpl in Hnz. congruence.
    + exists kv.1, kv.2. split; [|exact Hc].
      apply in_order_elem. destruct kv. exact Hkv.
Qed.

Lemma update_hash active srcs e k :
  hash_ (config (after (update active srcs e))) !! k
  = match srcs !! k with
    | Some c => if applies c then Some (digest c) else hash_ (config e) !! k
    | None => hash_ (config e) !! k
    end.
Proof.
  assert (Hpr : hash_ (p_config (apply_sources active srcs e)) !! k
                = match srcs !! k with
                  | Some c => if applies c then Some (digest c) else hash_ (config e) !! k
                  | None => hash_ (config e) !! k
                  end).
  { unfold Config.apply_sources. destruct (srcs !! k) as [c|] eqn:Hk.
    - rewrite (hash_applied_in active _ _ k c (in_order_keys_NoDup srcs));
        [reflexivity|]. apply in_order_elem, Hk.
    - apply hash_applied_out. intros Hin.
      apply list_elem_of_fmap in Hin as ([k' x] & -> & Hin).
      apply in_order_elem in Hin. simpl in Hk. congruence. }
  destruct (update_cases active srcs e) as [(_ & Hu & Hf & _)|(_ & _ & Hc & _)].
  - rewrite Hu. simpl. rewrite <- Hpr, Hf. reflexivity.
  - rewrite Hc. exact Hpr.
Qed.

Lemma update_valid active srcs e :
  Status.ok (status (update active srcs e)) = true ->
  valid_ (config (after (update active srcs e))) = true.
Proof.
  destruct (update_cases active srcs e) as [(_ & Hu & _)|(_ & _ & Hc & _)].
  - rewrite Hu. discriminate.
  - rewrite Hc. reflexivity.
Qed.


Lemma merge_sources_empty : merge_sources (∅ : gmap string ptree) = None.
Proof. reflexivity. Qed.

(** What a cycle hands on for a key is the merge of the values of the
    sources that provide the key. *)
Lemma update_merged active srcs e k :
  merged (update active srcs e) !! k = merge_sources (providers k srcs).
Proof.
  assert (Hg : default ∅ (p_grouped (apply_sources active srcs e) !! k)
               = providers k srcs).
  { apply map_eq. intros s. unfold Config.providers, Config.apply_sources.
    rewrite lookup_omap. destruct (srcs !! s) as [c|] eqn:Hs; simpl.
    - rewrite (grouped_applied_in active _ k _ s c (in_order_keys_NoDup srcs));
        [|apply in_order_elem, Hs].
      simpl. rewrite lookup_empty. destruct (value_of k c); reflexivity.
    - rewrite grouped_applied_out; [simpl; rewrite lookup_empty; reflexivity|].
      intros Hin. apply list_elem_of_fmap in Hin as ([s' x] & -> & Hin).
      apply in_order_elem in Hin. simpl in Hs. congruence. }
  destruct (update_cases active srcs e) as [(_ & Hu & Hf & _)|(_ & _ & _ & _ & Hm & _)].
  - rewrite Hu. simpl. rewrite <- Hg, Hf. reflexivity.
  - rewrite Hm, lookup_omap, <- Hg.
    destruct (p_grouped (apply_sources active srcs e) !! k); reflexivity.
Qed.





(** What one dispatch does: the disabled set only grows, and only by the
    parsers of which a call failed; a call is made to a registered
    parser that was enabled, with its requested present keys, and a
    failing call disables the parser; a parser that is enabled afterwards
    and requests a present key has been called; the registered names stay
    the same. *)
Lemma dispatch_spec m ps : forall dis ps' dis' log,
  dispatch m ps dis = (ps', dis', log) ->
  dis ⊆ dis' /\
  (forall n, n ∈ dis' ->
     n ∈ dis \/ exists call, call ∈ log /\ call_parser call = n
                             /\ Status.ok (call_result call) = false) /\
  (forall call, call ∈ log ->
     (call_parser call ∉ dis) /\
     (Status.ok (call_result call) = false -> call_parser call ∈ dis') /\
     exists p, (call_parser call, p) ∈ ps
               /\ call_config call = requested (ConfigParserPlugin.keys p) m) /\
  (forall n p, (n, p) ∈ ps -> n ∉ dis' ->
     requested (ConfigParserPlugin.keys p) m <> ∅ ->
     exists call, call ∈ log /\ call_parser call = n
                  /\ call_config call = requested (ConfigParserPlugin.keys p) m
                  /\ Status.ok (call_result call) = true) /\
  ps'.*1 = ps.*1.
Proof.
  induction ps as [|[n0 p0] r IH]; intros dis ps' dis' log Hd; simpl in Hd.
  - injection Hd as <- <- <-. split; [reflexivity|].
    split; [intros n Hn; left; exact Hn|]. split; [|split; [|reflexivity]].
    + intros call Hc. apply elem_of_nil in Hc. contradiction.
    + intros n p Hin. apply elem_of_nil in Hin. contradiction.
  - destruct (bool_decide (n0 ∈ dis)
              || bool_decide (requested (ConfigParserPlugin.keys p0) m = ∅)) eqn:Hskip.
    + destruct (dispatch m r dis) as [[r' dis1] log1] eqn:Hrec.
      injection Hd as <- <- <-.
      destruct (IH _ _ _ _ Hrec) as (Hsub & Honly & Hcalls & Hlive & Hnames).
      split; [exact Hsub|]. split; [exact Honly|]. split; [|split].
      * intros call Hc. destruct (Hcalls call Hc) as (H1 & H2 & p & Hp & Hcfg).
        split; [exact H1|]. split; [exact H2|].
        exists p. split; [right; exact Hp | exact Hcfg].
      * intros n p Hin Hn Hreq. apply elem_of_cons in Hin as [[= -> ->]|Hin].
        -- exfalso. apply orb_true_iff in Hskip as [Hs|Hs].
           ++ apply bool_decide_eq_true in Hs. apply Hn, Hsub, Hs.
           ++ apply bool_decide_eq_true in Hs. exact (Hreq Hs).
        -- apply (Hlive n p Hin Hn Hreq).
      * rewrite !fmap_cons, Hnames. reflexivity.
    + apply orb_false_iff in Hskip as [Hen _].
      apply bool_decide_eq_false in Hen.
      destruct (ConfigParserPlugin.update p0 (ConfigParserPlugin.data_ p0)
                  (requested (ConfigParserPlugin.keys p0) m)) as [st d] eqn:Hup.
      destruct (dispatch m r (if Status.ok st then dis else {[n0]} ∪ dis))
        as [[r' dis1] log1] eqn:Hrec.
      injection Hd as <- <- <-.
      destruct (IH _ _ _ _ Hrec) as (Hsub & Honly & Hcalls & Hlive & Hnames).
      assert (Hsub0 : dis ⊆ dis1).
      { etrans; [|exact Hsub].
        destruct (Status.ok st); [reflexivity | apply union_subseteq_r]. }
      split; [exact Hsub0|]. split; [|split; [|split]].
      * intros n Hn. destruct (Honly n Hn) as [Hin|(call & Hc & Hp & Hf)].
        -- destruct (Status.ok st) eqn:Hst; [left; exact Hin|].
           apply elem_of_union in Hin as [Hin|Hin]; [|left; exact Hin].
           apply elem_of_singleton in Hin. subst n. right.
           exists (mkCall n0 (requested (ConfigParserPlugin.keys p0) m) st).
           split; [left|]. split; [reflexivity | exact Hst].
        -- right. exists call. split; [right; exact Hc|]. split; assumption.
      * intros call Hc. apply elem_of_cons in Hc as [->|Hc]; simpl.
        -- split; [exact Hen|]. split.
           ++ intros Hst. apply Hsub. rewrite Hst.
              apply elem_of_union_l, elem_of_singleton. reflexivity.
           ++ exists p0. split; [left|reflexivity].
        -- destruct (Hcalls call Hc) as (H1 & H2 & p & Hp & Hcfg).
           split; [|split; [exact H2|]].
           ++ intros Hin. apply H1.
              destruct (Status.ok st); [exact Hin | apply elem_of_union_r, Hin].
           ++ exists p. split; [right; exact Hp | exact Hcfg].
      * intros n p Hin Hn Hreq. apply elem_of_cons in Hin as [[= -> ->]|Hin].
        -- exists (mkCall n0 (requested (ConfigParserPlugin.keys p0) m) st).
           split; [left|]. split; [reflexivity|]. split; [reflexivity|]. simpl.
           destruct (Status.ok st) eqn:Hst; [reflexivity|].
           exfalso. apply Hn, Hsub.
           apply elem_of_union_l, elem_of_singleton. reflexivity.
        -- destruct (Hlive n p Hin Hn Hreq) as (call & Hc & Hrest).
           exists call. split; [right; exact Hc | exact Hrest].
      * rewrite !fmap_cons, Hnames. reflexivity.
Qed.




(** *** Pack discovery *)










(** *** The digest of the configuration *)

Local Abbreviation getMD5 := (getMD5 digest).
Local Abbreviation aggregate := (aggregate).

Lemma getMD5_ext c1 c2 :
  valid_ c1 = valid_ c2 -> hash_ c1 = hash_ c2 -> getMD5 c1 = getMD5 c2.
Proof. unfold Config.getMD5, Config.aggregate. intros -> ->. reflexivity. Qed.



Lemma update_ok_of_source active srcs e s A :
  srcs !! s = Some A -> applies A = true ->
  Status.ok (status (update active srcs e)) = true.
Proof. intros Hs HA. apply update_ok_iff. eauto. Qed.

(** After a source has been reloaded with another content that applies,
    the stored digests are those of before with the digest of the new
    content under that source. *)
Lemma reload_hash active1 active2 srcs e s B :
  applies B = true ->
  hash_ (config (after (update active2 (<[s := B]> srcs)
                          (after (update active1 srcs e)))))
  = <[s := digest B]> (hash_ (config (after (update active1 srcs e)))).
Proof.
  intros HaB. apply map_eq. intros k. rewrite update_hash, !lookup_insert.
  destruct (decide (s = k)) as [<-|Hk]; [rewrite HaB; reflexivity|].
  rewrite update_hash. destruct (srcs !! k) as [c|]; [|reflexivity].
  destruct (applies c); reflexivity.
Qed.

(** A reload whose content differs from the loaded one and has the same
    digest leaves the digest of the configuration as it is. *)
Lemma colliding_reload_keeps_digest active1 active2 srcs e s A B :
  srcs !! s = Some A -> applies A = true -> applies B = true ->
  digest A = digest B ->
  getMD5 (config (after (update active2 (<[s := B]> srcs)
                           (after (update active1 srcs e)))))
  = getMD5 (config (after (update active1 srcs e))).
Proof.
  intros HA HaA HaB Hd. apply getMD5_ext.
  - rewrite !update_valid; [reflexivity | |];
      [apply (update_ok_of_source _ _ _ s A); assumption
      |apply (update_ok_of_source _ _ _ s B); [apply lookup_insert_eq | exact HaB]].
  - rewrite (reload_hash _ _ _ _ _ _ HaB). apply insert_id.
    rewrite update_hash, HA, HaA, Hd. reflexivity.
Qed.


(** *** Parsers that reject an update *)


(** *** The merge handed to the parsers *)

(** C1: the value that a cycle dispatches for a key is the merge of the
    values of the sources that provide the key, taken in the lexical order
    of their identifiers, and each parser call carries that value for its
    keys.  For objects, members are merged key by key, recursively, and a
    leaf of a source is the merged value at its path when the later
    sources leave the path alone, so that of the sources defining the leaf
    the lexically last wins.  For arrays, the merged value is the
    concatenation of the arrays in that order; its length is the sum of
    their lengths. *)
Theorem merge_precedence :
  (forall active srcs e k,
     merged (update active srcs e) !! k = merge_sources (providers k srcs)) /\
  (forall active srcs e call k t,
     call ∈ calls (update active srcs e) ->
     call_config call !! k = Some t ->
     merge_sources (providers k srcs) = Some t) /\
  (forall k srcs s v,
     providers k srcs !! s = Some v <->
     exists json fields, srcs !! s = Some json /\ parse json = Some (PObj fields)
                         /\ reserved k = false /\ assoc k fields = Some v) /\
  (forall (m : gmap string ptree) earlier s t later p v,
     in_order m = earlier ++ (s, t) :: later ->
     get_path p t = Some v ->
     is_leaf v = true ->
     Forall (fun st => untouched p st.2 = true) later ->
     exists r, merge_sources m = Some r /\ get_path p r = Some v) /\
  (forall a b p v, get_path p b = Some v -> is_leaf v = true ->
                   get_path p (merge_tree a b) = Some v) /\
  (forall k fa fb,
     get_path [k] (merge_tree (PObj fa) (PObj fb))
     = match assoc k fa, assoc k fb with
       | Some va, Some vb => Some (merge_tree va vb)
       | Some va, None => Some va
       | None, o => o
       end) /\
  (forall ml : gmap string ptree,
     StronglySorted str_lt (in_order ml).*1 /\
     (forall src val, (src, val) ∈ in_order ml <-> ml !! src = Some val) /\
     (ml <> ∅ ->
      (forall src val, ml !! src = Some val -> is_array val = true) ->
      merge_sources ml = Some (PArr (concat (array_items <$> (in_order ml).*2))) /\
      forall items, merge_sources ml = Some (PArr items) ->
        length items = sum_list (length <$> (array_items <$> (in_order ml).*2)))).
Proof.
  split; [intros; apply update_merged|].
  split; [|split; [|split; [|split; [|split]]]].
  - intros active srcs e call k t Hc Hk. rewrite <- update_merged with (active := active) (e := e).
    destruct (update_cases active srcs e) as [(_ & Hu & _)|(_ & _ & _ & _ & _ & Hd)].
    + rewrite Hu in Hc. apply elem_of_nil in Hc. contradiction.
    + destruct (dispatch_spec _ _ _ _ _ _ Hd) as (_ & _ & Hcalls & _).
      destruct (Hcalls call Hc) as (_ & _ & p & _ & Hcfg).
      rewrite Hcfg in Hk. unfold requested in Hk.
      apply map_lookup_filter_Some in Hk as [Hk _]. exact Hk.
  - intros k srcs s v. unfold Config.providers, Config.value_of.
    rewrite lookup_omap. split.
    + destruct (srcs !! s) as [json|]; simpl; [|discriminate].
      destruct (parse json) as [[| | | | |fields]|] eqn:Hp; try discriminate.
      destruct (reserved k) eqn:Hk; [discriminate|].
      intros H. exists json, fields. auto.
    + intros (json & fields & -> & Hp & Hk & Hv). simpl.
      rewrite Hp, Hk. exact Hv.
  - intros m earlier s t later p v Hsplit Ht Hleaf Hlater.
    unfold merge_sources. rewrite Hsplit, fmap_app, fmap_cons. simpl.
    apply merge_all_split; [assumption..|].
    apply Forall_fmap. exact Hlater.
  - intros a b p v Hb Hleaf. apply later_wins; assumption.
  - apply merge_tree_member.
  - intros ml. split; [apply in_order_keys_sorted|].
    split; [intros src val; apply in_order_elem|].
    intros Hne Harr.
    assert (Hm : merge_sources ml
                 = Some (PArr (concat (array_items <$> (in_order ml).*2)))).
    { unfold merge_sources. apply merge_all_arrays.
      - intros Hnil. apply Hne. apply map_eq. intros i.
        rewrite lookup_empty. destruct (ml !! i) as [x|] eqn:Hi; [|reflexivity].
        apply in_order_elem in Hi. apply fmap_nil_inv in Hnil.
        rewrite Hnil in Hi. apply elem_of_nil in Hi. contradiction.
      - apply Forall_fmap, Forall_forall. intros [src val] Hin. simpl.
        apply (Harr src). apply in_order_elem. exact Hin. }
    split; [exact Hm|].
    intros items Hitems. rewrite Hm in Hitems. injection Hitems as <-.
    apply length_concat_sum.
Qed.
End SourceFacts.





Lemma merge_precedence_witness :
  exists r, merge_sources options_by_source = Some r
            /\ get_path ["verbose"] r = Some (PBool false).
Proof.
  destruct (merge_precedence read checksum) as (_ & _ & _ & Hleaf & _).
  apply (Hleaf options_by_source
           [("a", PObj [("verbose", PBool true); ("port", PNum 80)])]
           "b" (PObj [("verbose", PBool false)])
           [("c", PObj [("port", PNum 8080)])]
           ["verbose"] (PBool false)).
  - vm_compute. reflexivity.
  - reflexivity.
  - reflexivity.
  - repeat constructor.
Defined.

(** ** Scenarios

    The model run on the sample data. *)

(** Two sources that define a pack of the same name give two packs. *)
Example same_pack_name_two_sources :
  Schedule.idents
    (Config.schedule_
       (Config.config
          (Config.after
             (Config.update read checksum reachable {["s1" := "Q"; "s2" := "Q"]}
                fresh_engine))))
  = [("p1", "s1"); ("p1", "s2")].
Proof. vm_compute. reflexivity. Qed.

(** The pack given by a reference is skipped under the default [genPack];
    the inline pack of the same source is registered. *)
Example reference_skipped_inline_kept :
  Schedule.idents
    (Config.schedule_
       (Config.config (Config.after (Config.load read checksum reachable fresh_engine))))
  = [("p2", "s")].
Proof. vm_compute. reflexivity. Qed.

(** Both parsers are updated by the first load; the one that rejected is
    not updated by the second. *)
Example rejecting_parser_called_once :
  Config.call_parser <$>
    concat (Config.calls <$>
              Config.run_cycles read checksum [Config.Load reachable; Config.Load reachable]
                fresh_engine)
  = ["rejecting"; "storing"; "storing"].
Proof. vm_compute. reflexivity. Qed.

(** The parser that accepts its updates is never disabled. *)
Example storing_parser_stays_enabled :
  Config.disabled
    (Config.final read checksum [Config.Load reachable; Config.Load changed] fresh_engine)
  = {["rejecting"]}.
Proof. vm_compute. reflexivity. Qed.

(** Lists are appended by increasing source, duplicates included. *)
Example lists_are_appended :
  merge_sources lists_by_source = Some (PArr [PNum 1; PNum 2; PNum 2; PNum 3]).
Proof. vm_compute. reflexivity. Qed.

(** No digest before the first successful load. *)
Example no_digest_before_load :
  Config.getMD5 checksum
    (Config.config (Config.after (Config.load read checksum unreachable fresh_engine)))
  = (Status.mk 1 "Current config is not valid", None).
Proof. vm_compute. reflexivity. Qed.

(** An update none of whose sources parses fails, and no digest is
    returned after it. *)
Example update_of_no_source_fails :
  Status.ok (Config.status (Config.update read checksum reachable ∅ fresh_engine)) = false /\
  Status.ok (Config.status
               (Config.update read checksum reachable {["s" := "not a document"]}
                  fresh_engine)) = false /\
  Config.getMD5 checksum
    (Config.config
       (Config.after
          (Config.update read checksum reachable {["s" := "not a document"]}
             fresh_engine)))
  = (Status.mk 1 "Current config is not valid", None).
Proof. vm_compute. auto. Qed.

(** A source that is applied again supersedes the packs and the file
    paths it contributed before. *)
Example reload_supersedes_packs_and_files :
  let e2 := Config.final read checksum
              [Config.Update reachable {["s" := "F1"]};
               Config.Update reachable {["s" := "F2"]}] fresh_engine in
  Schedule.idents (Config.schedule_ (Config.config e2)) = [("p2", "s")] /\
  Config.files_ (Config.config e2) = {["etc" := ["/etc/passwd"]]}.
Proof. vm_compute. auto. Qed.

(** The file paths of a category are appended across sources, and the
    packs of another source are kept when one source is applied again. *)
Example other_sources_are_kept :
  let e2 := Config.final read checksum
              [Config.Update reachable {["s" := "F1"; "t" := "F2"]};
               Config.Update reachable {["s" := "F2"]}] fresh_engine in
  Schedule.idents (Config.schedule_ (Config.config e2)) = [("p2", "t"); ("p2", "s")] /\
  Config.files_ (Config.config e2) = {["etc" := ["/etc/passwd"; "/etc/passwd"]]}.
Proof. vm_compute. auto. Qed.

(** The pass over a schedule of a Linux pack and an unconstrained pack, on
    a Darwin host. *)
Example pass_on_darwin :
  Schedule.pass platform_applies "darwin"
    (Schedule.add custom_pack (Schedule.add linux_pack empty_schedule))
  = Some [custom_pack].
Proof. vm_compute. reflexivity. Qed.
